(** * llama_cpp_python_hijack: the library selector, the patch step and the
    batched evaluation loop of [modules/llama_cpp_python_hijack.py].

    The Python module is embedded shallowly.  Module globals become fields of
    a [state] record that every call threads explicitly; exceptions become the
    [Raise] constructor of [outcome]; module and class objects, which the
    patch step mutates in place, live in a store keyed by module name (Python's
    [sys.modules]), so that two imports of one name alias one object. *)

From Stdlib Require Import ZArith Lia.
From stdpp Require Import gmap strings list.

#[local] Set Warnings "-clear-no-such-hyp".

Open Scope string_scope.
Open Scope list_scope.

(** ** Exceptions *)

(** The exception classes that occur, with Python's class hierarchy:
    [ModuleNotFoundError] derives from [ImportError], everything from
    [Exception]. *)
Inductive exc_class :=
  | Exception
  | ImportError
  | ModuleNotFoundError
  | AttributeError
  | ValueError
  | IndexError
  | OSError
  | RuntimeError.

#[global] Instance exc_class_eq_dec : EqDecision exc_class.
Proof. solve_decision. Defined.

Definition base_class (c : exc_class) : option exc_class :=
  match c with
  | Exception => None
  | ModuleNotFoundError => Some ImportError
  | _ => Some Exception
  end.

(** [issubclass c d]: [d] is [c] or one of its ancestors (the hierarchy is
    three levels deep). *)
Definition issubclass (c d : exc_class) : bool :=
  bool_decide (c = d)
  || match base_class c with
     | None => false
     | Some b =>
         bool_decide (b = d)
         || match base_class b with
            | None => false
            | Some b' => bool_decide (b' = d)
            end
     end.

Record exn := Exn { exn_class : exc_class; exn_msg : string }.

#[global] Instance exn_eq_dec : EqDecision exn.
Proof. solve_decision. Defined.

(** [except cls:] catches [e] exactly when [isinstance e cls]. *)
Definition isinstance (e : exn) (cls : exc_class) : bool :=
  issubclass (exn_class e) cls.

Inductive outcome (A : Type) :=
  | Return (a : A)
  | Raise (e : exn).
Arguments Return {A} a.
Arguments Raise {A} e.

(** ** Python objects touched by the patch step *)

(** Function objects are told apart by identity: a function the library
    defines, or one of the three this module installs. *)
Inductive fn :=
  | Native (qualname : string)
  | EvalWithProgress
  | MyGenerate
  | PatchedInit.

Inductive pyval :=
  | VNone
  | VBool (b : bool)
  | VFun (f : fn).

#[global] Instance fn_eq_dec : EqDecision fn.
Proof. solve_decision. Defined.
#[global] Instance pyval_eq_dec : EqDecision pyval.
Proof. solve_decision. Defined.

(** Python truthiness. *)
Definition truthy (v : pyval) : bool :=
  match v with
  | VNone => false
  | VBool b => b
  | VFun _ => true
  end.

(** A class object is its attribute dictionary. *)
Abbreviation pyclass := (gmap string pyval).

(** [getattr(cls, name, dflt)]. *)
Definition getattr_default (cls : pyclass) (name : string) (dflt : pyval) : pyval :=
  default dflt (cls !! name).

(** The submodule [lib.llama_chat_format]; [None] is an absent attribute. *)
Record chat_format := ChatFormat { Jinja2ChatFormatter : option pyclass }.

(** A loaded library module: the attributes the patch step reads. *)
Record lib_obj := Lib {
  Llama : option pyclass;
  llama_chat_format : option chat_format
}.

(** ** monkey_patch_llama_cpp_python

    The function mutates [lib] in place, so the embedding returns the object
    as the call leaves it together with the outcome, also when it raises. *)

Definition patch_formatter (lib : lib_obj) : option chat_format :=
  match llama_chat_format lib with
  | None => None
  | Some m =>
      match Jinja2ChatFormatter m with
      | None => Some m
      | Some Formatter =>
          if negb (truthy (getattr_default Formatter "_is_patched" (VBool false)))
          then Some (ChatFormat (Some
                 (<["_is_patched" := VBool true]>
                    (<["__init__" := VFun PatchedInit]> Formatter))))
          else Some m
      end
  end.

Definition monkey_patch_llama_cpp_python (lib : lib_obj) : outcome unit * lib_obj :=
  match Llama lib with
  | None => (Raise (Exn AttributeError "module has no attribute 'Llama'"), lib)
  | Some cls =>
      if truthy (getattr_default cls "_is_patched" (VBool false))
      then (Return tt, lib)
      else
        let cls1 := <["eval" := VFun EvalWithProgress]> cls in
        match cls1 !! "generate" with
        | None =>
            (Raise (Exn AttributeError "type object 'Llama' has no attribute 'generate'"),
             Lib (Some cls1) (llama_chat_format lib))
        | Some g =>
            let cls2 := <["original_generate" := g]> cls1 in
            let cls3 := <["generate" := VFun MyGenerate]> cls2 in
            let fmt := patch_formatter lib in
            (Return tt, Lib (Some (<["_is_patched" := VBool true]> cls3)) fmt)
        end
  end.

(** ** Process state and environment of the selector *)

(** A library handle is a reference to a module object: the key under which
    the import system keeps it. *)
Abbreviation handle := string.

Record state := State {
  imported_module : option string;
  not_available_modules : gset string;
  sys_modules : gmap string lib_obj
}.

Definition init_state : state := State None ∅ ∅.

(** What a call reads from outside the module: [platform.system()], the
    truth value of [getattr(shared.args, arg)] (the module [shared] is not
    part of these sources), and what the import system does with a module that
    is not loaded yet: the fresh module object, or the exception. *)
Record env := Env {
  platform_system : string;
  shared_args : string → bool;
  find_module : string → outcome lib_obj
}.

(** [importlib.import_module name]: a module already loaded is returned as it
    is; otherwise it is located and executed, and registered on success. *)
Definition import_module (E : env) (name : string) (st : state) : outcome handle * state :=
  match sys_modules st !! name with
  | Some _ => (Return name, st)
  | None =>
      match find_module E name with
      | Return l =>
          (Return name,
           State (imported_module st) (not_available_modules st)
                 (<[name := l]> (sys_modules st)))
      | Raise e => (Raise e, st)
      end
  end.

(** The patch step applied through a handle. *)
Definition patch_handle (h : handle) (st : state) : outcome unit * state :=
  match sys_modules st !! h with
  | None => (Raise (Exn AttributeError "module has no attribute 'Llama'"), st)
  | Some l =>
      let '(r, l') := monkey_patch_llama_cpp_python l in
      (r, State (imported_module st) (not_available_modules st)
                (<[h := l']> (sys_modules st)))
  end.

(** ** llama_cpp_lib *)

Definition lib_names (system : string) : list (option string * string) :=
  let is_macos := bool_decide (system = "Darwin") in
  if is_macos then
    [ (None, "llama_cpp") ]
  else
    [ (Some "cpu", "llama_cpp");
      (Some "tensorcores", "llama_cpp_cuda_tensorcores");
      (None, "llama_cpp_cuda");
      (None, "llama_cpp") ].

Definition should_import (E : env) (arg : option string) : bool :=
  match arg with
  | None => true
  | Some a => shared_args E a
  end.

(** [imported_module and imported_module != lib_name]. *)
Definition conflict (marker : option string) (lib_name : string) : bool :=
  match marker with
  | None => false
  | Some m => negb (bool_decide (m = "")) && negb (bool_decide (m = lib_name))
  end.

Definition conflict_message (lib_name imported : string) : string :=
  "Cannot import `" +:+ lib_name +:+ "` because `" +:+ imported +:+
  "` is already imported. Switching to a different version of llama-cpp-python currently requires a server restart.".

Definition marker_text (marker : option string) : string :=
  match marker with
  | None => "None"
  | Some m => m
  end.

(** The body of the [try] block: import, record the variant, patch. *)
Definition try_import (E : env) (lib_name : string) (st : state) : outcome handle * state :=
  match import_module E lib_name st with
  | (Raise e, st1) => (Raise e, st1)
  | (Return return_lib, st1) =>
      let st2 := State (Some lib_name) (not_available_modules st1) (sys_modules st1) in
      match patch_handle return_lib st2 with
      | (Raise e, st3) => (Raise e, st3)
      | (Return _, st3) => (Return return_lib, st3)
      end
  end.

(** One entry of the trace per call of [importlib.import_module]. *)
Inductive event := ImportCall (name : string).

#[global] Instance event_eq_dec : EqDecision event.
Proof. solve_decision. Defined.

(** The [for] loop over the candidates.  The result is the outcome of the
    call, the globals as the call leaves them, and the trace. *)
Fixpoint select (E : env) (cands : list (option string * string)) (st : state)
  : outcome (option handle) * state * list event :=
  match cands with
  | [] => (Return None, st, [])
  | (arg, lib_name) :: rest =>
      if bool_decide (lib_name ∈ not_available_modules st) then select E rest st
      else if should_import E arg then
        if conflict (imported_module st) lib_name then
          (Raise (Exn Exception
                    (conflict_message lib_name (marker_text (imported_module st)))),
           st, [])
        else
          match try_import E lib_name st with
          | (Return return_lib, st') => (Return (Some return_lib), st', [ImportCall lib_name])
          | (Raise e, st') =>
              if isinstance e ImportError then
                let st'' := State (imported_module st')
                                  ({[lib_name]} ∪ not_available_modules st')
                                  (sys_modules st') in
                let '(r, st3, tr) := select E rest st'' in
                (r, st3, ImportCall lib_name :: tr)
              else (Raise e, st', [ImportCall lib_name])
          end
      else select E rest st
  end.

Definition llama_cpp_lib (E : env) (st : state)
  : outcome (option handle) * state * list event :=
  select E (lib_names (platform_system E)) st.

(** A process: successive calls, each in the environment of its time.  An
    exception ends a call, not the process, so the state is threaded on. *)
Fixpoint run_calls (Es : list env) (st : state)
  : list (outcome (option handle) * list event) * state :=
  match Es with
  | [] => ([], st)
  | E :: Es' =>
      let '(r, st', tr) := llama_cpp_lib E st in
      let '(rs, st'') := run_calls Es' st' in
      ((r, tr) :: rs, st'')
  end.

(** ** Python and NumPy indexing used by eval_with_progress *)

(** One bound of a slice over a sequence of length [len] (step 1): a negative
    bound counts from the end, and both ends are clipped. *)
Definition slice_bound (len : nat) (x : Z) : nat :=
  Z.to_nat (if (x <? 0)%Z then Z.max (x + Z.of_nat len) 0 else Z.min x (Z.of_nat len)).

(** [l[a:b]]. *)
Definition py_slice {A} (l : list A) (a b : Z) : list A :=
  let start := slice_bound (length l) a in
  let stop := slice_bound (length l) b in
  take (stop - start) (drop start l).

(** [range(0, stop, step)]. *)
Definition py_range (stop step : Z) : outcome (list Z) :=
  if (step =? 0)%Z then Raise (Exn ValueError "range() arg 3 must not be zero")
  else if (step <? 0)%Z then Return []
  else Return (map (λ k : nat, (Z.of_nat k * step)%Z)
                   (seq 0 (Z.to_nat ((stop + step - 1) / step)))).

(** Assignment of [vals] to the [m] cells of a one-dimensional array that
    start at [start]: the shapes must agree, except that a single value is
    broadcast over the cells, however many (also none) there are. *)
Definition np_assign {A} (l : list A) (start m : nat) (vals : list A) : outcome (list A) :=
  if bool_decide (length vals = m) then
    Return (take start l ++ vals ++ drop (start + m) l)
  else
    match vals with
    | [v] => Return (take start l ++ replicate m v ++ drop (start + m) l)
    | _ => Raise (Exn ValueError "could not broadcast input array")
    end.

(** [arr[a:b] = vals] on a one-dimensional array: the slice is clipped to the
    array, which never grows. *)
Definition np_set_slice {A} (arr : list A) (a b : Z) (vals : list A) : outcome (list A) :=
  let start := slice_bound (length arr) a in
  let stop := slice_bound (length arr) b in
  np_assign arr start (stop - start) vals.

(** A two-dimensional array in row-major order, as NumPy lays it out. *)
Record array2 (A : Type) := Array2 {
  shape0 : nat;
  shape1 : nat;
  flat : list A
}.
Arguments Array2 {A} _ _ _.
Arguments shape0 {A} _.
Arguments shape1 {A} _.
Arguments flat {A} _.

(** [arr[a:b, :].reshape(-1)[::] = vals]: the rows of a slice are contiguous,
    so the flattened slice is a view and the assignment writes through. *)
Definition np_set_rows {A} (arr : array2 A) (a b : Z) (vals : list A) : outcome (array2 A) :=
  let start := slice_bound (shape0 arr) a in
  let stop := slice_bound (shape0 arr) b in
  match np_assign (flat arr) (start * shape1 arr) ((stop - start) * shape1 arr) vals with
  | Return f => Return (Array2 (shape0 arr) (shape1 arr) f)
  | Raise e => Raise e
  end.

(** An integer index on an axis of size [n]. *)
Definition np_index (n : nat) (i : Z) : outcome nat :=
  if ((i <? - Z.of_nat n) || (Z.of_nat n <=? i))%Z then
    Raise (Exn IndexError "index is out of bounds for axis 0")
  else Return (Z.to_nat (if (i <? 0)%Z then i + Z.of_nat n else i)).

(** [arr[i, :] = vals]. *)
Definition np_set_row {A} (arr : array2 A) (i : Z) (vals : list A) : outcome (array2 A) :=
  match np_index (shape0 arr) i with
  | Raise e => Raise e
  | Return r =>
      match np_assign (flat arr) (r * shape1 arr) (shape1 arr) vals with
      | Return f => Return (Array2 (shape0 arr) (shape1 arr) f)
      | Raise e => Raise e
      end
  end.

(** ** eval_with_progress *)

Section Eval.

(** Logit values are opaque to the loop. *)
Variable F : Type.

(** The native context, outside these sources: [decode] on a batch placed
    at [n_past] returns ([None]) or raises, and afterwards [get_logits]
    points to a buffer, read here cell by cell. *)
Variable ctx_decode : Z → list Z → option exn.
Variable ctx_get_logits : Z → list Z → nat → F.

(** The fields of a [Llama] instance the loop reads and writes.  The class
    belongs to the patched library, whose constructor allocates [input_ids]
    and [scores] as NumPy arrays of a fixed size (one cell per context
    position; one row per context position with [logits_all], per batch
    position without): the arrays never grow, and a slice that runs past the
    end is clipped.  Token ids fit the array's element type. *)
Record llama := LlamaObj {
  n_tokens : Z;
  n_batch : Z;
  input_ids : list Z;
  scores : array2 F;
  logits_all : bool;
  n_vocab : nat;
  last_updated_index : option Z
}.

(** What one iteration did: the batch it took and where it was placed, and
    the row of [scores] it addressed when [logits_all] is off. *)
Record iteration := Iteration {
  it_n_past : Z;
  it_batch : list Z;
  it_row : option Z
}.

(** [np.ctypeslib.as_array(get_logits(), shape=(rows * cols,))]. *)
Definition as_array (n_past : Z) (batch : list Z) (size : nat) : list F :=
  map (ctx_get_logits n_past batch) (seq 0 size).

(** The body of the loop at index [i]. *)
Definition eval_step (tokens : list Z) (i : Z) (self : llama)
  : outcome unit * llama * list iteration :=
  let batch := py_slice tokens i (Z.min (Z.of_nat (length tokens)) (i + n_batch self)) in
  let n_past := n_tokens self in
  let n_tok := Z.of_nat (length batch) in
  match ctx_decode n_past batch with
  | Some e => (Raise e, self, [])
  | None =>
      match np_set_slice (input_ids self) n_past (n_past + n_tok) batch with
      | Raise e => (Raise e, self, [Iteration n_past batch None])
      | Return ids =>
          let self1 := LlamaObj (n_tokens self) (n_batch self) ids (scores self)
                         (logits_all self) (n_vocab self) (last_updated_index self) in
          if logits_all self then
            let rows := length batch in
            let cols := n_vocab self in
            let logits := as_array n_past batch (rows * cols) in
            match np_set_rows (scores self) n_past (n_past + n_tok) logits with
            | Raise e => (Raise e, self1, [Iteration n_past batch None])
            | Return sc =>
                (Return tt,
                 LlamaObj (n_tokens self + n_tok) (n_batch self) ids sc
                   (logits_all self) (n_vocab self) (Some (n_past + n_tok - 1)%Z),
                 [Iteration n_past batch None])
            end
          else
            let rows := 1 in
            let cols := n_vocab self in
            let logits := as_array n_past batch (rows * cols) in
            let last_token_index :=
              Z.min (n_past + n_tok - 1) (Z.of_nat (shape0 (scores self)) - 1) in
            match np_set_row (scores self) last_token_index logits with
            | Raise e => (Raise e, self1, [Iteration n_past batch (Some last_token_index)])
            | Return sc =>
                (Return tt,
                 LlamaObj (n_tokens self + n_tok) (n_batch self) ids sc
                   (logits_all self) (n_vocab self) (Some last_token_index),
                 [Iteration n_past batch (Some last_token_index)])
            end
      end
  end.

(** [for i in progress_bar: ...]. *)
Fixpoint eval_loop (tokens : list Z) (progress_bar : list Z) (self : llama)
  : outcome unit * llama * list iteration :=
  match progress_bar with
  | [] => (Return tt, self, [])
  | i :: rest =>
      match eval_step tokens i self with
      | (Return _, self', its) =>
          let '(r, self'', its') := eval_loop tokens rest self' in
          (r, self'', its ++ its')
      | (Raise e, self', its) => (Raise e, self', its)
      end
  end.

(** The progress bar only decorates the range: with or without [tqdm] the
    loop visits the same indices.  The call to [kv_cache_seq_rm] leaves the
    instance alone. *)
Definition eval_with_progress (self : llama) (tokens : list Z)
  : outcome unit * llama * list iteration :=
  match py_range (Z.of_nat (length tokens)) (n_batch self) with
  | Raise e => (Raise e, self, [])
  | Return progress_bar => eval_loop tokens progress_bar self
  end.

End Eval.

Arguments n_tokens {F} _.
Arguments n_batch {F} _.
Arguments input_ids {F} _.
Arguments scores {F} _.
Arguments logits_all {F} _.
Arguments n_vocab {F} _.
Arguments last_updated_index {F} _.
Arguments LlamaObj {F} _ _ _ _ _ _ _.

(** ** patched_init

    The replacement for [Jinja2ChatFormatter.__init__].  Its arguments are
    arbitrary Python values; those that matter here are the ones below. *)

Inductive value :=
  | NoneV
  | BoolV (b : bool)
  | IntV (z : Z)
  | StrV (s : string)
  | ListV (l : list Z)
  | SetV (s : gset Z)
  | CharsV (s : gset Ascii.ascii)
  | TemplateV (id : nat).

(** An exception, by the name of its class. *)
Record raised := Raised { raised_class : string; raised_msg : string }.

Inductive result (A : Type) :=
  | Done (a : A)
  | Fails (e : raised).
Arguments Done {A} a.
Arguments Fails {A} e.

(** [set(v)]: a list loses its order and its duplicates, a string becomes the
    set of its characters, a set is copied, anything else is not iterable. *)
Definition py_set (v : value) : result value :=
  match v with
  | ListV l => Done (SetV (list_to_set l))
  | SetV s => Done (SetV s)
  | StrV s => Done (CharsV (list_to_set (String.list_ascii_of_string s)))
  | CharsV s => Done (CharsV s)
  | _ => Fails (Raised "TypeError" "object is not iterable")
  end.

(** The options the sandboxed environment is created with. *)
Record jinja_options := JinjaOptions {
  trim_blocks : bool;
  lstrip_blocks : bool;
  extensions : list string
}.

(** [args[i] if len(args) > i else kwargs.get(name, dflt)]. *)
Definition arg_or_kw (args : list value) (i : nat) (kwargs : gmap string value)
    (name : string) (dflt : value) : value :=
  match args !! i with
  | Some v => v
  | None => default dflt (kwargs !! name)
  end.

(** The assignments of the five parameters to the instance. *)
Definition init_parameters (self : gmap string value) (args : list value)
    (kwargs : gmap string value) : gmap string value :=
  match args with
  | template :: _ =>
      <["stop_token_ids" := arg_or_kw args 4 kwargs "stop_token_ids" NoneV]>
        (<["add_generation_prompt" := arg_or_kw args 3 kwargs "add_generation_prompt" (BoolV true)]>
           (<["bos_token" := arg_or_kw args 2 kwargs "bos_token" NoneV]>
              (<["eos_token" := arg_or_kw args 1 kwargs "eos_token" NoneV]>
                 (<["template" := template]> self))))
  | [] =>
      <["stop_token_ids" := default NoneV (kwargs !! "stop_token_ids")]>
        (<["add_generation_prompt" := default (BoolV true) (kwargs !! "add_generation_prompt")]>
           (<["bos_token" := default NoneV (kwargs !! "bos_token")]>
              (<["eos_token" := default NoneV (kwargs !! "eos_token")]>
                 (<["template" := default NoneV (kwargs !! "template")]> self))))
  end.

(** [patched_init self args kwargs]: the instance as the call leaves it, and
    the exception when it raises.  [from_string] stands for Jinja: creating
    the environment with the given options and compiling the template. *)
Definition patched_init (from_string : jinja_options → value → result value)
    (self : gmap string value) (args : list value) (kwargs : gmap string value)
  : option raised * gmap string value :=
  let self1 := init_parameters self args kwargs in
  let stop := default NoneV (self1 !! "stop_token_ids") in
  match (match stop with NoneV => Done NoneV | _ => py_set stop end) with
  | Fails e => (Some e, self1)
  | Done stop' =>
      let self2 := <["stop_token_ids" := stop']> self1 in
      match from_string (JinjaOptions true true ["jinja2.ext.loopcontrols"])
                        (default NoneV (self2 !! "template")) with
      | Fails e => (Some e, self2)
      | Done env => (None, <["_environment" := env]> self2)
      end
  end.

(** The names of the five parameters, in positional order. *)
Definition init_names : list string :=
  ["template"; "eos_token"; "bos_token"; "add_generation_prompt"; "stop_token_ids"].

(** The value a call passes for the [i]-th parameter: positional if there is
    one, else by keyword, else the default. *)
Definition passed (args : list value) (kwargs : gmap string value) (i : nat) : value :=
  arg_or_kw args i kwargs (default "" (init_names !! i))
    (if bool_decide (i = 3%nat) then BoolV true else NoneV).

(** ** Notions used to state the properties *)

(** The candidate the loop reaches first: the first one that is neither known
    to be unavailable nor ruled out by the configuration. *)
Fixpoint first_candidate (E : env) (na : gset string)
    (cands : list (option string * string)) : option string :=
  match cands with
  | [] => None
  | (arg, lib_name) :: rest =>
      if bool_decide (lib_name ∈ na) then first_candidate E na rest
      else if should_import E arg then Some lib_name
      else first_candidate E na rest
  end.

(** [mentions s t]: the text [t] contains [s]. *)
Definition mentions (s t : string) : Prop :=
  ∃ a b, t = a +:+ s +:+ b.

(** The states a process can be in: those some sequence of calls leads to. *)
Definition reachable (st : state) : Prop :=
  ∃ Es, st = (run_calls Es init_state).2.

(** The import calls of a trace, by name. *)
Definition imports (tr : list event) : list string :=
  map (λ ev, match ev with ImportCall n => n end) tr.

(** A module object on which the patch step has run to its end. *)
Definition patched (l : lib_obj) : Prop :=
  ∃ cls, Llama l = Some cls ∧ truthy (getattr_default cls "_is_patched" (VBool false)) = true.

(** [import_raises E mods n e]: with the modules [mods] loaded, importing [n]
    raises [e]. *)
Definition import_raises (E : env) (mods : gmap string lib_obj) (n : string) (e : exn) : Prop :=
  mods !! n = None ∧ find_module E n = Raise e.

(** The state after a recovered import failure of [n]. *)
Definition mark_unavailable (n : string) (st : state) : state :=
  State (imported_module st) ({[n]} ∪ not_available_modules st) (sys_modules st).

(** The marker of a state is well formed when it is empty or holds a name. *)
Definition marker_ok (st : state) : Prop :=
  ∀ m, imported_module st = Some m → m ≠ "".

(** The module object an import of [n] yields: the one already loaded, or
    the fresh one. *)
Definition module_of (E : env) (mods : gmap string lib_obj) (n : string) : option lib_obj :=
  match mods !! n with
  | Some l => Some l
  | None =>
      match find_module E n with
      | Return l => Some l
      | Raise _ => None
      end
  end.

(** [patch_raises E mods n e]: the import of [n] succeeds and the patch step
    on its module raises [e]. *)
Definition patch_raises (E : env) (mods : gmap string lib_obj) (n : string) (e : exn) : Prop :=
  ∃ l, module_of E mods n = Some l ∧ (monkey_patch_llama_cpp_python l).1 = Raise e.

(** The conflict exception for the candidate [n] in the state [st]. *)
Definition conflict_exn (st : state) (n : string) : exn :=
  Exn Exception (conflict_message n (marker_text (imported_module st))).

(** [exhausted E st cands]: every candidate is unavailable, ruled out by the
    configuration, or fails to import. *)
Definition exhausted (E : env) (st : state) (cands : list (option string * string)) : Prop :=
  ∀ arg n, (arg, n) ∈ cands →
    n ∈ not_available_modules st
    ∨ should_import E arg = false
    ∨ ∃ e, import_raises E (sys_modules st) n e.

(** The same, where a candidate that fails to import does so with an
    [ImportError] and does not differ from a loaded variant. *)
Definition exhausted_quietly (E : env) (st : state)
    (cands : list (option string * string)) : Prop :=
  ∀ arg n, (arg, n) ∈ cands →
    n ∈ not_available_modules st
    ∨ should_import E arg = false
    ∨ ((imported_module st = None ∨ imported_module st = Some n)
       ∧ ∃ e, import_raises E (sys_modules st) n e ∧ isinstance e ImportError = true).

(** The [j]-th batch of [s] tokens. *)
Definition chunk {A} (s : nat) (l : list A) (j : nat) : list A :=
  take s (drop (j * s) l).

(** [splice l p v]: the array [l] with [v] stored from position [p] on. *)
Definition splice {A} (l : list A) (p : nat) (v : list A) : list A :=
  take p l ++ v ++ drop (p + length v) l.

(** What the loop leaves alone in a [Llama] instance, and the direction in
    which the token counter moves. *)
Definition steady {F} (self0 self : llama F) : Prop :=
  (n_tokens self0 ≤ n_tokens self)%Z
  ∧ n_batch self = n_batch self0
  ∧ logits_all self = logits_all self0
  ∧ n_vocab self = n_vocab self0
  ∧ shape0 (scores self) = shape0 (scores self0)
  ∧ shape1 (scores self) = shape1 (scores self0).

(** The instance after [j] batches of the tokens have been taken, when it
    started as [self0] and has room for them. *)
Definition progress {F} (tokens : list Z) (self0 : llama F) (j : nat) (self : llama F) : Prop :=
  let consumed := take (j * Z.to_nat (n_batch self0)) tokens in
  n_tokens self = (n_tokens self0 + Z.of_nat (length consumed))%Z
  ∧ input_ids self = splice (input_ids self0) (Z.to_nat (n_tokens self0)) consumed.

(** The row an iteration addressed in a [scores] array of [R] rows, when the
    counter started at [lo]. *)
Definition row_ok (R : nat) (lo : Z) (it : iteration) : Prop :=
  ∀ idx, it_row it = Some idx →
    idx = Z.min (it_n_past it + Z.of_nat (length (it_batch it)) - 1) (Z.of_nat R - 1)
    ∧ (idx ≤ Z.of_nat R - 1)%Z
    ∧ ((0 ≤ lo)%Z → (0 < R)%nat →
         (0 ≤ idx < Z.of_nat R)%Z ∧ np_index R idx = Return (Z.to_nat idx)).

(** The [scores] array can take what a call with [L] tokens writes: a row
    holds one logit per vocabulary entry, and there is a row for every
    position when [logits_all] is on, at least one row otherwise. *)
Definition scores_fit {F} (self : llama F) (L : nat) : Prop :=
  shape1 (scores self) = n_vocab self
  ∧ if logits_all self
    then (Z.to_nat (n_tokens self) + L ≤ shape0 (scores self))%nat
    else (0 < shape0 (scores self))%nat.

(** The loaded variant is consistent with the rest of the state: it is not
    recorded as unavailable, and its module is loaded. *)
Definition loaded_ok (st : state) : Prop :=
  ∀ m, imported_module st = Some m →
    (m ∉ not_available_modules st) ∧ is_Some (sys_modules st !! m).

(** [arr[r, :]], read from the row-major cells. *)
Definition get_row {A} (arr : array2 A) (r : nat) : list A :=
  take (shape1 arr) (drop (r * shape1 arr) (flat arr)).

(** The row [last_updated_index] names once the counter reads [n]. *)
Definition row_after {F} (self : llama F) (n : Z) : Z :=
  if logits_all self then (n - 1)%Z
  else Z.min (n - 1) (Z.of_nat (shape0 (scores self)) - 1).

(** The writes to [scores] of a run without [logits_all], replayed from what
    the iterations took: each stores the logits read for its batch in the row
    [min(n_past + n_tokens - 1, scores.shape[0] - 1)]. *)
Fixpoint replay_rows {F} (get_logits : Z → list Z → nat → F) (cols : nat)
    (sc : array2 F) (its : list iteration) : outcome (array2 F) :=
  match its with
  | [] => Return sc
  | it :: rest =>
      let rows := 1%nat in
      let last_token_index :=
        Z.min (it_n_past it + Z.of_nat (length (it_batch it)) - 1)
              (Z.of_nat (shape0 sc) - 1) in
      match np_set_row sc last_token_index
              (as_array F get_logits (it_n_past it) (it_batch it) (rows * cols)) with
      | Return sc' => replay_rows get_logits cols sc' rest
      | Raise e => Raise e
      end
  end.

(** ** Concrete processes, for the examples *)

(** The class [Llama] and the module of a library as it comes from disk. *)
Definition stock_llama : gmap string pyval :=
  {[ "generate" := VFun (Native "Llama.generate");
     "eval" := VFun (Native "Llama.eval") ]}.

Definition stock_lib : lib_obj :=
  Lib (Some stock_llama)
      (Some (ChatFormat (Some {[ "__init__" := VFun (Native "Jinja2ChatFormatter.__init__") ]}))).

(** An installation where exactly the variants [names] can be imported. *)
Definition installed (names : list string) (n : string) : outcome lib_obj :=
  if bool_decide (n ∈ names) then Return stock_lib
  else Raise (Exn ModuleNotFoundError ("No module named '" +:+ n +:+ "'")).

(** A configuration where exactly the flags [on] are set. *)
Definition flags (on : list string) (a : string) : bool :=
  bool_decide (a ∈ on).

(** * Properties *)

(** ** The patch step *)

Lemma patch_raises_attribute_error lib e lib' :
  monkey_patch_llama_cpp_python lib = (Raise e, lib') → exn_class e = AttributeError.
Proof.
  unfold monkey_patch_llama_cpp_python.
  repeat case_match; intros; simplify_eq; done.
Qed.

Lemma patch_success_patched lib lib' :
  monkey_patch_llama_cpp_python lib = (Return tt, lib') → patched lib'.
Proof.
  unfold monkey_patch_llama_cpp_python, patched.
  destruct (Llama lib) as [cls|] eqn:Hcls; [|done].
  destruct (truthy (getattr_default cls "_is_patched" (VBool false))) eqn:Hp.
  - intros [= <-]. eauto.
  - case_match; [|done]. intros [= <-]. eexists. split; [done|].
    unfold getattr_default. by rewrite lookup_insert_eq.
Qed.

Lemma patch_of_patched lib :
  patched lib → monkey_patch_llama_cpp_python lib = (Return tt, lib).
Proof.
  intros (cls & Hcls & Hp). unfold monkey_patch_llama_cpp_python.
  by rewrite Hcls, Hp.
Qed.

(** ** Steps of the selector *)

Lemma import_module_cases E n st r st1 :
  import_module E n st = (r, st1) →
  imported_module st1 = imported_module st ∧
  not_available_modules st1 = not_available_modules st ∧
  ((r = Return n ∧ is_Some (sys_modules st1 !! n)) ∨ (∃ e, r = Raise e ∧ st1 = st)).
Proof.
  unfold import_module. destruct (sys_modules st !! n) as [l|] eqn:Hl.
  - intros [= <- <-]. rewrite Hl. split_and!; [done|done|]. left. eauto.
  - destruct (find_module E n) as [l|e]; intros [= <- <-]; simpl.
    + rewrite lookup_insert_eq. split_and!; [done|done|]. left. eauto.
    + split_and!; [done|done|]. right. eauto.
Qed.

Lemma patch_handle_cases h st r st1 :
  patch_handle h st = (r, st1) →
  imported_module st1 = imported_module st ∧
  not_available_modules st1 = not_available_modules st ∧
  match r with
  | Return _ => ∃ l, sys_modules st1 !! h = Some l ∧ patched l
  | Raise e => exn_class e = AttributeError
  end.
Proof.
  unfold patch_handle. destruct (sys_modules st !! h) as [l|] eqn:Hl.
  - destruct (monkey_patch_llama_cpp_python l) as [r' l'] eqn:Hp.
    intros [= <- <-]; simpl. split_and!; [done|done|].
    destruct r' as [[]|e].
    + exists l'. rewrite lookup_insert_eq. eauto using patch_success_patched.
    + eauto using patch_raises_attribute_error.
  - intros [= <- <-]. done.
Qed.

(** What the [try] block can do: hand back the handle of the variant, now
    recorded and patched; or raise an exception of the import with the state
    untouched; or raise an [AttributeError] of the patch step. *)
Lemma try_import_cases E n st r st1 :
  try_import E n st = (r, st1) →
  not_available_modules st1 = not_available_modules st ∧
  ((r = Return n ∧ imported_module st1 = Some n ∧
    ∃ l, sys_modules st1 !! n = Some l ∧ patched l)
   ∨ (∃ e, r = Raise e ∧ st1 = st ∧ (import_module E n st).1 = Raise e)
   ∨ (∃ e, r = Raise e ∧ exn_class e = AttributeError ∧ imported_module st1 = Some n)).
Proof.
  unfold try_import.
  destruct (import_module E n st) as [ri sti] eqn:Hi.
  destruct (import_module_cases _ _ _ _ _ Hi) as (Hm & Hna & [[-> Hs] | (e & -> & ->)]).
  - destruct (patch_handle n _) as [rp stp] eqn:Hp.
    destruct (patch_handle_cases _ _ _ _ Hp) as (Hm' & Hna' & Hr). simpl in *.
    destruct rp as [[]|e]; intros [= <- <-].
    + split; [congruence|]. left. rewrite Hm'. eauto.
    + split; [congruence|]. right. right. rewrite Hm'. eauto.
  - intros [= <- <-]. split; [done|]. right. left. eauto.
Qed.

Lemma attribute_error_not_import_error e :
  exn_class e = AttributeError → isinstance e ImportError = false.
Proof. unfold isinstance. by intros ->. Qed.

Lemma import_module_raises E n st e :
  (import_module E n st).1 = Raise e ↔ import_raises E (sys_modules st) n e.
Proof.
  unfold import_module, import_raises.
  destruct (sys_modules st !! n); [naive_solver|].
  destruct (find_module E n); naive_solver.
Qed.

(** The ways one iteration of the loop can go: the candidate is skipped; the
    conflict is raised; the variant is loaded; an [ImportError] of the import
    is recovered; any other exception propagates. *)
Lemma select_cons_inv E arg n rest st r st' tr :
  select E ((arg, n) :: rest) st = (r, st', tr) →
  ((n ∈ not_available_modules st ∨ should_import E arg = false) ∧
   select E rest st = (r, st', tr))
  ∨ ((n ∉ not_available_modules st) ∧ should_import E arg = true ∧
     ((conflict (imported_module st) n = true ∧
       r = Raise (Exn Exception (conflict_message n (marker_text (imported_module st)))) ∧
       st' = st ∧ tr = [])
      ∨ (conflict (imported_module st) n = false ∧
         ((try_import E n st = (Return n, st') ∧ r = Return (Some n) ∧
           tr = [ImportCall n])
          ∨ (∃ e tr', import_raises E (sys_modules st) n e ∧
               isinstance e ImportError = true ∧
               select E rest (mark_unavailable n st) = (r, st', tr') ∧
               tr = ImportCall n :: tr')
          ∨ (∃ e, try_import E n st = (Raise e, st') ∧
               isinstance e ImportError = false ∧
               r = Raise e ∧ tr = [ImportCall n]))))).
Proof.
  simpl. case_bool_decide as Hna; [by left; split; [left|]|].
  destruct (should_import E arg) eqn:Hsi; [|by left; split; [right|]].
  intros Hsel. right. split_and!; [done|done|].
  destruct (conflict (imported_module st) n) eqn:Hc.
  { left. by simplify_eq. }
  right. split; [done|].
  destruct (try_import E n st) as [rt stt] eqn:Ht.
  destruct (try_import_cases _ _ _ _ _ Ht)
    as (Hna' & [(-> & Hm & Hl) | [(e & -> & -> & Hi) | (e & -> & He & Hm)]]).
  - left. by simplify_eq.
  - apply import_module_raises in Hi.
    destruct (isinstance e ImportError) eqn:Hie.
    + right. left.
      destruct (select E rest _) as [[r3 st3] tr3] eqn:Hrec.
      exists e, tr3. unfold mark_unavailable. by simplify_eq.
    + right. right. exists e. by simplify_eq.
  - rewrite (attribute_error_not_import_error _ He) in Hsel.
    right. right. exists e. rewrite (attribute_error_not_import_error _ He).
    by simplify_eq.
Qed.

(** The unavailable set only grows during a call. *)
Lemma select_unavailable_mono E cands st r st' tr :
  select E cands st = (r, st', tr) →
  not_available_modules st ⊆ not_available_modules st'.
Proof.
  revert st r st' tr. induction cands as [|[arg n] rest IH]; intros st r st' tr Hsel.
  { by simplify_eq/=. }
  apply select_cons_inv in Hsel
    as [[_ Hrec] | (Hna & Hsi & [(_ & _ & -> & _) |
         (Hc & [(Ht & _) | [(e & tr' & _ & _ & Hrec & _) | (e & Ht & _)]])])].
  - eauto.
  - done.
  - apply try_import_cases in Ht as [-> _]. done.
  - apply IH in Hrec. simpl in Hrec. set_solver.
  - apply try_import_cases in Ht as [-> _]. done.
Qed.

(** No iteration imports a name that is in the unavailable set, be it there
    from the start or added earlier in the same call. *)
Lemma select_imports_fresh E cands st r st' tr :
  select E cands st = (r, st', tr) →
  NoDup (imports tr) ∧
  ∀ n, n ∈ imports tr → (n ∉ not_available_modules st) ∧ n ∈ (cands.*2).
Proof.
  revert st r st' tr. induction cands as [|[arg n] rest IH]; intros st r st' tr Hsel.
  { simplify_eq/=. split; [constructor|]. intros n Hn. by apply elem_of_nil in Hn. }
  apply select_cons_inv in Hsel
    as [[_ Hrec] | (Hna & Hsi & [(_ & _ & _ & ->) |
         (Hc & [(_ & _ & ->) | [(e & tr' & _ & _ & Hrec & ->) | (e & _ & _ & _ & ->)]])])];
    simpl.
  - destruct (IH _ _ _ _ Hrec) as [Hnd Hin]. split; [done|].
    intros m Hm. destruct (Hin m Hm). set_solver.
  - split; [constructor|]. intros m Hm. by apply elem_of_nil in Hm.
  - split; [apply NoDup_singleton|]. intros m ->%list_elem_of_singleton. set_solver.
  - destruct (IH _ _ _ _ Hrec) as [Hnd Hin]. simpl in Hin. split.
    + constructor; [|done]. intros Hn. destruct (Hin n Hn). set_solver.
    + intros m [->|Hm]%elem_of_cons; [set_solver|].
      destruct (Hin m Hm). set_solver.
  - split; [apply NoDup_singleton|]. intros m ->%list_elem_of_singleton. set_solver.
Qed.

(** A name enters the unavailable set only when its import raised an
    [ImportError] in this call. *)
Lemma select_unavailable_origin E cands st r st' tr :
  select E cands st = (r, st', tr) →
  ∀ n, n ∈ not_available_modules st' →
    n ∈ not_available_modules st
    ∨ (n ∈ imports tr ∧
       ∃ e, import_raises E (sys_modules st) n e ∧ isinstance e ImportError = true).
Proof.
  revert st r st' tr. induction cands as [|[arg n] rest IH]; intros st r st' tr Hsel m Hm.
  { simplify_eq/=. by left. }
  apply select_cons_inv in Hsel
    as [[_ Hrec] | (Hna & Hsi & [(_ & _ & -> & _) |
         (Hc & [(Ht & _) | [(e & tr' & Hi & Hie & Hrec & ->) | (e & Ht & _)]])])].
  - eauto.
  - by left.
  - apply try_import_cases in Ht as [Heq _]. left. by rewrite <- Heq.
  - destruct (IH _ _ _ _ Hrec m Hm) as [Hin | (Hin & e' & He')]; simpl in *.
    + apply elem_of_union in Hin as [->%elem_of_singleton | Hin]; [|by left].
      right. split; [set_solver|]. eauto.
    + right. split; [set_solver|]. eauto.
  - apply try_import_cases in Ht as [Heq _]. left. by rewrite <- Heq.
Qed.

(** The marker after a call is the marker before it, or the name of a
    candidate that did not conflict with it. *)
Lemma select_marker E cands st r st' tr :
  select E cands st = (r, st', tr) →
  imported_module st' = imported_module st
  ∨ ∃ n, imported_module st' = Some n ∧ n ∈ (cands.*2) ∧
         conflict (imported_module st) n = false.
Proof.
  revert st r st' tr. induction cands as [|[arg n] rest IH]; intros st r st' tr Hsel.
  { simplify_eq/=. by left. }
  apply select_cons_inv in Hsel
    as [[_ Hrec] | (Hna & Hsi & [(_ & _ & -> & _) |
         (Hc & [(Ht & _) | [(e & tr' & _ & _ & Hrec & _) | (e & Ht & _)]])])].
  - destruct (IH _ _ _ _ Hrec) as [? | (m & ? & ? & ?)]; [by left|].
    right. exists m. set_solver.
  - by left.
  - apply try_import_cases in Ht as (_ & [(_ & Hm & _) | [(? & ? & _) | (? & ? & _)]]);
      [|done..]. right. exists n. set_solver.
  - destruct (IH _ _ _ _ Hrec) as [? | (m & ? & ? & ?)]; [by left|].
    right. exists m. set_solver.
  - apply try_import_cases in Ht as (_ & [(? & _) | [(? & _ & -> & _) | (? & _ & _ & Hm)]]);
      [done|by left|]. right. exists n. set_solver.
Qed.

Lemma conflict_false_inv m n :
  conflict (Some m) n = false → m = "" ∨ m = n.
Proof.
  unfold conflict. repeat case_bool_decide; naive_solver.
Qed.

Lemma conflict_true m n : m ≠ "" → n ≠ m → conflict (Some m) n = true.
Proof.
  intros ? ?. unfold conflict. rewrite !bool_decide_eq_false_2; done.
Qed.

(** A marker that holds a name survives every call. *)
Lemma select_marker_stable E cands st r st' tr m :
  select E cands st = (r, st', tr) →
  imported_module st = Some m → m ≠ "" →
  imported_module st' = Some m.
Proof.
  intros Hsel Hm Hne.
  destruct (select_marker _ _ _ _ _ _ Hsel) as [-> | (n & -> & _ & Hc)]; [done|].
  rewrite Hm in Hc. apply conflict_false_inv in Hc as [?| ->]; done.
Qed.

Lemma lib_names_nonempty system n : n ∈ (lib_names system).*2 → n ≠ "".
Proof.
  unfold lib_names. case_bool_decide; simpl; intros Hn;
    repeat (apply elem_of_cons in Hn as [-> | Hn]; [done|]);
    by apply elem_of_nil in Hn.
Qed.

Lemma llama_cpp_lib_marker_ok E st r st' tr :
  llama_cpp_lib E st = (r, st', tr) → marker_ok st → marker_ok st'.
Proof.
  unfold llama_cpp_lib. intros Hsel Hok m Hm.
  destruct (select_marker _ _ _ _ _ _ Hsel) as [Heq | (n & Hn & Hin & _)].
  - apply Hok. congruence.
  - apply lib_names_nonempty in Hin. congruence.
Qed.

Lemma run_calls_cons E Es st :
  run_calls (E :: Es) st =
    (((llama_cpp_lib E st).1.1, (llama_cpp_lib E st).2)
       :: (run_calls Es (llama_cpp_lib E st).1.2).1,
     (run_calls Es (llama_cpp_lib E st).1.2).2).
Proof.
  simpl. destruct (llama_cpp_lib E st) as [[r st'] tr]. simpl.
  by destruct (run_calls Es st').
Qed.

Lemma run_calls_app Es1 Es2 st :
  (run_calls (Es1 ++ Es2) st).2 = (run_calls Es2 (run_calls Es1 st).2).2.
Proof.
  revert st. induction Es1 as [|E Es1 IH]; intros st; [done|].
  rewrite <- app_comm_cons, !run_calls_cons. simpl. apply IH.
Qed.

Lemma run_calls_marker_ok Es st : marker_ok st → marker_ok (run_calls Es st).2.
Proof.
  revert st. induction Es as [|E Es IH]; intros st Hok; [done|].
  rewrite run_calls_cons. simpl. apply IH.
  destruct (llama_cpp_lib E st) as [[r st'] tr] eqn:Hc. simpl.
  eauto using llama_cpp_lib_marker_ok.
Qed.

Lemma reachable_marker_ok st : reachable st → marker_ok st.
Proof. intros [Es ->]. apply run_calls_marker_ok. by intros m. Qed.

(** The loop stops at the first candidate it reaches when that one conflicts
    with the loaded variant. *)
Lemma select_conflict E cands st m n :
  imported_module st = Some m → m ≠ "" →
  first_candidate E (not_available_modules st) cands = Some n → n ≠ m →
  select E cands st = (Raise (Exn Exception (conflict_message n m)), st, []).
Proof.
  intros Hm Hne Hfirst Hnm. induction cands as [|[arg c] rest IH]; [done|].
  simpl in *. case_bool_decide; [auto|].
  destruct (should_import E arg); [|auto].
  simplify_eq. by rewrite Hm, conflict_true.
Qed.

(** A successful call leaves the variant recorded and its module patched. *)
Lemma select_success E cands st h st' tr :
  select E cands st = (Return (Some h), st', tr) →
  imported_module st' = Some h ∧ ∃ l, sys_modules st' !! h = Some l ∧ patched l.
Proof.
  revert st tr. induction cands as [|[arg n] rest IH]; intros st tr Hsel; [done|].
  apply select_cons_inv in Hsel
    as [[_ Hrec] | (Hna & Hsi & [(_ & ? & _) |
         (Hc & [(Ht & ? & _) | [(e & tr' & _ & _ & Hrec & _) | (e & _ & _ & ? & _)]])])];
    [eauto|done| |eauto|done].
  simplify_eq.
  apply try_import_cases in Ht as (_ & [(_ & Hm & Hl) | [(? & ? & _) | (? & ? & _)]]);
    done.
Qed.

(** When the first candidate reached is the variant already loaded and
    patched, the call imports it once more, gets the module the import system
    holds, and changes nothing. *)
Lemma select_reuse E cands st h l :
  imported_module st = Some h →
  sys_modules st !! h = Some l → patched l →
  first_candidate E (not_available_modules st) cands = Some h →
  select E cands st = (Return (Some h), st, [ImportCall h]).
Proof.
  intros Hm Hl Hp Hfirst. induction cands as [|[arg c] rest IH]; [done|].
  simpl in *. case_bool_decide; [auto|].
  destruct (should_import E arg); [|auto].
  simplify_eq. unfold conflict. rewrite Hm.
  rewrite (bool_decide_eq_true_2 (h = h)) by done. rewrite andb_false_r.
  unfold try_import, import_module. rewrite Hl.
  unfold patch_handle. cbn [sys_modules imported_module not_available_modules].
  rewrite Hl, (patch_of_patched _ Hp).
  rewrite insert_id by done. destruct st; simpl in *. by subst.
Qed.

(** ** The candidate list *)

(** C8.  On macOS ([platform.system()] is ["Darwin"]) the candidate list has
    exactly one entry, the ungated fallback [llama_cpp]; on every other
    platform it has exactly four entries, in the order cpu-gated fallback,
    tensorcores-gated CUDA, ungated CUDA, ungated fallback.  The list does not
    depend on the configuration: on macOS two calls that differ only in the
    flags behave alike. *)
Theorem candidate_list_by_platform (system : string) :
  (system = "Darwin" →
     lib_names system = [(None, "llama_cpp")] ∧ length (lib_names system) = 1
     ∧ ∀ args args' find st,
         llama_cpp_lib (Env system args find) st = llama_cpp_lib (Env system args' find) st)
  ∧ (system ≠ "Darwin" →
     lib_names system =
       [(Some "cpu", "llama_cpp");
        (Some "tensorcores", "llama_cpp_cuda_tensorcores");
        (None, "llama_cpp_cuda");
        (None, "llama_cpp")]
     ∧ length (lib_names system) = 4).
Proof.
  split.
  - intros ->. split_and!; [done|done|]. intros args args' find st.
    unfold llama_cpp_lib. simpl. done.
  - intros Hne. unfold lib_names. by rewrite bool_decide_eq_false_2.
Qed.

(** ** The conflict *)

Lemma string_app_assoc (a b c : string) : (a +:+ b) +:+ c = a +:+ (b +:+ c).
Proof.
  induction a as [|x a IH]; [done|].
  change (String x ((a +:+ b) +:+ c) = String x (a +:+ (b +:+ c))). by rewrite IH.
Qed.

Lemma conflict_message_mentions n m :
  mentions n (conflict_message n m) ∧ mentions m (conflict_message n m)
  ∧ mentions "restart" (conflict_message n m).
Proof.
  unfold mentions, conflict_message. split_and!.
  - by eexists _, _.
  - exists ("Cannot import `" +:+ n +:+ "` because `"), "` is already imported. Switching to a different version of llama-cpp-python currently requires a server restart.".
    by rewrite !string_app_assoc.
  - exists ("Cannot import `" +:+ n +:+ "` because `" +:+ m +:+ "` is already imported. Switching to a different version of llama-cpp-python currently requires a server "), ".".
    by rewrite !string_app_assoc.
Qed.

(** C1.  In a process where a variant [m] is loaded, a call whose first
    candidate that is neither unavailable nor ruled out by the configuration
    names another variant raises the conflict exception.  Its message names
    both variants and the restart; the call imports nothing and leaves the
    marker, the unavailable set and the loaded modules as they were. *)
Theorem conflict_raised_state_untouched E st m lib_name :
  reachable st →
  imported_module st = Some m →
  first_candidate E (not_available_modules st) (lib_names (platform_system E))
    = Some lib_name →
  lib_name ≠ m →
  llama_cpp_lib E st = (Raise (Exn Exception (conflict_message lib_name m)), st, [])
  ∧ mentions lib_name (conflict_message lib_name m)
  ∧ mentions m (conflict_message lib_name m)
  ∧ mentions "restart" (conflict_message lib_name m).
Proof.
  intros Hr Hm Hfirst Hne. split; [|apply conflict_message_mentions].
  apply select_conflict; [done| |done|done].
  by apply (reachable_marker_ok st Hr).
Qed.

(** A process that loaded the tensorcores build, then runs with the flag
    turned off: the next candidate is the plain CUDA build. *)
Lemma conflict_raised_state_untouched_witness :
  let E1 := Env "Linux" (flags ["tensorcores"])
                (installed ["llama_cpp_cuda_tensorcores"; "llama_cpp_cuda"]) in
  let E2 := Env "Linux" (flags [])
                (installed ["llama_cpp_cuda_tensorcores"; "llama_cpp_cuda"]) in
  let st := (run_calls [E1] init_state).2 in
  llama_cpp_lib E2 st
    = (Raise (Exn Exception
                (conflict_message "llama_cpp_cuda" "llama_cpp_cuda_tensorcores")),
       st, [])
  ∧ mentions "llama_cpp_cuda" (conflict_message "llama_cpp_cuda" "llama_cpp_cuda_tensorcores")
  ∧ mentions "llama_cpp_cuda_tensorcores"
      (conflict_message "llama_cpp_cuda" "llama_cpp_cuda_tensorcores")
  ∧ mentions "restart" (conflict_message "llama_cpp_cuda" "llama_cpp_cuda_tensorcores").
Proof.
  intros E1 E2 st.
  apply (conflict_raised_state_untouched E2 st "llama_cpp_cuda_tensorcores" "llama_cpp_cuda").
  - by exists [E1].
  - by vm_compute.
  - by vm_compute.
  - discriminate.
Defined.

(** ** The unavailable set *)

Lemma llama_cpp_lib_skips_unavailable E st name :
  name ∈ not_available_modules st →
  (name ∉ imports (llama_cpp_lib E st).2)
  ∧ name ∈ not_available_modules (llama_cpp_lib E st).1.2.
Proof.
  intros Hin. destruct (llama_cpp_lib E st) as [[r st'] tr] eqn:Hc. simpl.
  unfold llama_cpp_lib in Hc. split.
  - intros Hn. by destruct (proj2 (select_imports_fresh _ _ _ _ _ _ Hc) _ Hn).
  - by apply (select_unavailable_mono _ _ _ _ _ _ Hc).
Qed.

(** C2.  Once a name is in the unavailable set, no later call of the process
    imports it: each iteration that meets it skips it before the import.  The
    set only grows, and within one call no name is imported twice, so a name
    recorded during a call is not retried by the rest of that call either. *)
Theorem unavailable_never_retried (Es : list env) (st : state) (name : string) :
  name ∈ not_available_modules st →
  Forall (λ rt, name ∉ imports rt.2) (run_calls Es st).1
  ∧ not_available_modules st ⊆ not_available_modules (run_calls Es st).2
  ∧ Forall (λ rt, NoDup (imports rt.2)) (run_calls Es st).1.
Proof.
  revert st. induction Es as [|E Es IH]; intros st Hin.
  { simpl. split_and!; [constructor|done|constructor]. }
  rewrite run_calls_cons. simpl.
  destruct (llama_cpp_lib_skips_unavailable E st name Hin) as [Hskip Hin'].
  destruct (IH _ Hin') as (Hrest & Hsub & Hnd).
  destruct (llama_cpp_lib E st) as [[r st'] tr] eqn:Hc. simpl in *.
  unfold llama_cpp_lib in Hc.
  pose proof (select_unavailable_mono _ _ _ _ _ _ Hc) as Hmono.
  pose proof (proj1 (select_imports_fresh _ _ _ _ _ _ Hc)) as Hnd1.
  split_and!; [by constructor|set_solver|by constructor].
Qed.

(** The first call finds the CUDA build missing and records it; the fallback
    loads.  The later calls never import the CUDA build again. *)
Lemma unavailable_never_retried_witness :
  let E := Env "Linux" (flags []) (installed ["llama_cpp"]) in
  let st := (run_calls [E] init_state).2 in
  Forall (λ rt, "llama_cpp_cuda" ∉ imports rt.2) (run_calls [E; E] st).1
  ∧ not_available_modules st ⊆ not_available_modules (run_calls [E; E] st).2
  ∧ Forall (λ rt, NoDup (imports rt.2)) (run_calls [E; E] st).1.
Proof.
  intros E st. apply (unavailable_never_retried [E; E] st "llama_cpp_cuda").
  by vm_compute.
Defined.

(** ** The loaded-variant marker *)

Lemma run_calls_marker_stable Es st m :
  imported_module st = Some m → m ≠ "" →
  imported_module (run_calls Es st).2 = Some m.
Proof.
  revert st. induction Es as [|E Es IH]; intros st Hm Hne; [done|].
  rewrite run_calls_cons. simpl. apply IH; [|done].
  destruct (llama_cpp_lib E st) as [[r st'] tr] eqn:Hc. simpl.
  unfold llama_cpp_lib in Hc. eauto using select_marker_stable.
Qed.

(** C3.  Once some call of the process has set the marker to a variant name,
    the marker holds that name after every later call, whatever the
    configuration and the installation at the time of those calls: an
    assignment after the first writes the same name, or is not reached
    because the conflict is raised first. *)
Theorem marker_never_changes (Es1 Es2 : list env) (m : string) :
  imported_module (run_calls Es1 init_state).2 = Some m →
  imported_module (run_calls (Es1 ++ Es2) init_state).2 = Some m.
Proof.
  intros Hm. rewrite run_calls_app. apply run_calls_marker_stable; [done|].
  apply (reachable_marker_ok (run_calls Es1 init_state).2); [by exists Es1|done].
Qed.

(** The tensorcores build is loaded first; then the flags change twice. *)
Lemma marker_never_changes_witness :
  let inst := installed ["llama_cpp"; "llama_cpp_cuda"; "llama_cpp_cuda_tensorcores"] in
  imported_module
    (run_calls ([Env "Linux" (flags ["tensorcores"]) inst]
                ++ [Env "Linux" (flags ["cpu"]) inst; Env "Linux" (flags []) inst])
               init_state).2
  = Some "llama_cpp_cuda_tensorcores".
Proof.
  intros inst.
  apply (marker_never_changes [Env "Linux" (flags ["tensorcores"]) inst]).
  by vm_compute.
Defined.

(** ** Repeated calls for one variant *)

(** C4, as stated, fails: the selector keeps no handle of its own, so every
    call runs [importlib.import_module] again.  Three calls that select the
    same variant make three import calls, not one. *)
Lemma every_call_imports_again :
  let E := Env "Darwin" (flags []) (installed ["llama_cpp"]) in
  (run_calls [E; E; E] init_state).1.*1
    = [Return (Some "llama_cpp"); Return (Some "llama_cpp"); Return (Some "llama_cpp")]
  ∧ concat ((run_calls [E; E; E] init_state).1.*2)
    = [ImportCall "llama_cpp"; ImportCall "llama_cpp"; ImportCall "llama_cpp"]
  ∧ length (concat ((run_calls [E; E; E] init_state).1.*2)) ≠ 1.
Proof. by vm_compute. Qed.

(** C4, amended.  After a call that returned the handle [h], every later call
    whose configuration still selects that variant runs exactly one import
    call, for [h]; the import system answers it with the module it already
    holds, so the call returns the same handle, loads no module, finds the
    patch applied and leaves the whole state as it was. *)
Theorem repeated_calls_same_handle E st h st1 tr1 (Es : list env) :
  llama_cpp_lib E st = (Return (Some h), st1, tr1) →
  Forall (λ E', first_candidate E' (not_available_modules st1)
                  (lib_names (platform_system E')) = Some h) Es →
  run_calls Es st1 = (map (λ _, (Return (Some h), [ImportCall h])) Es, st1).
Proof.
  intros Hfirst HEs.
  apply select_success in Hfirst as (Hm & l & Hl & Hp).
  induction HEs as [|E' Es HE' _ IH]; [done|].
  simpl. unfold llama_cpp_lib. rewrite (select_reuse _ _ _ _ _ Hm Hl Hp HE').
  by rewrite IH.
Qed.

(** On Linux without the CUDA builds: the first call tries the CUDA build,
    records it and loads the fallback; the next two calls import the fallback
    only. *)
Lemma repeated_calls_same_handle_witness :
  let E := Env "Linux" (flags []) (installed ["llama_cpp"]) in
  let st1 := (llama_cpp_lib E init_state).1.2 in
  run_calls [E; E] st1
    = (map (λ _, (Return (Some "llama_cpp"), [ImportCall "llama_cpp"])) [E; E], st1).
Proof.
  intros E st1.
  apply (repeated_calls_same_handle E init_state "llama_cpp" st1
           [ImportCall "llama_cpp_cuda"; ImportCall "llama_cpp"] [E; E]).
  - by vm_compute.
  - repeat constructor.
Defined.

(** ** Idempotence of the patch step *)

(** C5.  After an application of the patch step that ran to its end, a
    second application to the same module returns at once, on the marker, and
    changes nothing.  When the first application did the patching,
    [Llama.generate] is the wrapper, [Llama.original_generate] is the
    [generate] the class had before, and [Llama.eval] is the batched
    evaluation; the second application leaves these in place. *)
Theorem monkey_patch_twice_is_noop (lib lib1 : lib_obj) :
  monkey_patch_llama_cpp_python lib = (Return tt, lib1) →
  monkey_patch_llama_cpp_python lib1 = (Return tt, lib1)
  ∧ patched lib1
  ∧ ∀ cls, Llama lib = Some cls →
      truthy (getattr_default cls "_is_patched" (VBool false)) = false →
      ∃ cls1 g, Llama lib1 = Some cls1
        ∧ cls !! "generate" = Some g
        ∧ cls1 !! "original_generate" = Some g
        ∧ cls1 !! "generate" = Some (VFun MyGenerate)
        ∧ cls1 !! "eval" = Some (VFun EvalWithProgress)
        ∧ cls1 !! "_is_patched" = Some (VBool true).
Proof.
  intros Hp. pose proof (patch_success_patched _ _ Hp) as Hd.
  split_and!; [by apply patch_of_patched|done|].
  intros cls Hcls Hnp. unfold monkey_patch_llama_cpp_python in Hp.
  rewrite Hcls, Hnp in Hp.
  rewrite lookup_insert_ne in Hp by done.
  destruct (cls !! "generate") as [g|] eqn:Hg; [|done].
  injection Hp as <-. eexists _, g. split_and!; [done|done|..].
  - rewrite lookup_insert_ne by done. rewrite lookup_insert_ne by done.
    by rewrite lookup_insert_eq.
  - rewrite lookup_insert_ne by done. by rewrite lookup_insert_eq.
  - do 3 (rewrite lookup_insert_ne by done). by rewrite lookup_insert_eq.
  - by rewrite lookup_insert_eq.
Qed.

Lemma monkey_patch_twice_is_noop_witness :
  let lib1 := (monkey_patch_llama_cpp_python stock_lib).2 in
  monkey_patch_llama_cpp_python lib1 = (Return tt, lib1)
  ∧ patched lib1
  ∧ ∀ cls, Llama stock_lib = Some cls →
      truthy (getattr_default cls "_is_patched" (VBool false)) = false →
      ∃ cls1 g, Llama lib1 = Some cls1
        ∧ cls !! "generate" = Some g
        ∧ cls1 !! "original_generate" = Some g
        ∧ cls1 !! "generate" = Some (VFun MyGenerate)
        ∧ cls1 !! "eval" = Some (VFun EvalWithProgress)
        ∧ cls1 !! "_is_patched" = Some (VBool true).
Proof.
  intros lib1. apply (monkey_patch_twice_is_noop stock_lib lib1). by vm_compute.
Defined.

(** ** Failures of the import and of the patch step *)

Lemma try_import_raises E n st e :
  import_raises E (sys_modules st) n e → try_import E n st = (Raise e, st).
Proof.
  intros [Hnone Hfind]. unfold try_import, import_module. by rewrite Hnone, Hfind.
Qed.

Lemma try_import_raise_inv E n st e st' :
  try_import E n st = (Raise e, st') →
  not_available_modules st' = not_available_modules st
  ∧ (import_raises E (sys_modules st) n e ∨ patch_raises E (sys_modules st) n e).
Proof.
  intros Ht. split; [by apply try_import_cases in Ht as [? _]|].
  revert Ht. unfold try_import, import_module, import_raises, patch_raises, module_of.
  destruct (sys_modules st !! n) as [l|] eqn:Hl.
  - unfold patch_handle. cbn [sys_modules imported_module not_available_modules].
    rewrite Hl. destruct (monkey_patch_llama_cpp_python l) as [[[]|e'] l'] eqn:Hp; [done|].
    intros [= -> _]. right. exists l. by rewrite Hp.
  - destruct (find_module E n) as [l|e'] eqn:Hf.
    + unfold patch_handle. cbn [sys_modules imported_module not_available_modules].
      rewrite lookup_insert_eq.
      destruct (monkey_patch_llama_cpp_python l) as [[[]|e'] l'] eqn:Hp; [done|].
      intros [= -> _]. right. exists l. by rewrite Hp.
    + intros [= -> _]. by left.
Qed.

(** A candidate whose import raises an [ImportError] is recorded, and the loop
    goes on with the candidates after it. *)
Lemma select_recovers E arg n rest st e :
  n ∉ not_available_modules st →
  should_import E arg = true →
  conflict (imported_module st) n = false →
  import_raises E (sys_modules st) n e →
  isinstance e ImportError = true →
  select E ((arg, n) :: rest) st
  = (let '(r, st3, tr) := select E rest (mark_unavailable n st) in
     (r, st3, ImportCall n :: tr)).
Proof.
  intros Hna Hsi Hc Hi Hie. simpl.
  rewrite bool_decide_eq_false_2 by done.
  by rewrite Hsi, Hc, (try_import_raises _ _ _ _ Hi), Hie.
Qed.

(** Every import of the call that raised an [ImportError] is recorded. *)
Lemma select_records E cands st r st' tr n e :
  select E cands st = (r, st', tr) →
  n ∈ imports tr →
  import_raises E (sys_modules st) n e → isinstance e ImportError = true →
  n ∈ not_available_modules st'.
Proof.
  revert st r st' tr. induction cands as [|[arg c] rest IH];
    intros st r st' tr Hsel Hin Hi Hie.
  { simplify_eq/=. by apply elem_of_nil in Hin. }
  apply select_cons_inv in Hsel
    as [[_ Hrec] | (Hna & Hsi & [(_ & _ & _ & ->) |
         (Hc & [(Ht & _ & ->) | [(e' & tr' & _ & _ & Hrec & ->) | (e' & Ht & Hie' & _ & ->)]])])];
    simpl in Hin.
  - eauto.
  - by apply elem_of_nil in Hin.
  - apply list_elem_of_singleton in Hin as ->.
    rewrite (try_import_raises _ _ _ _ Hi) in Ht. done.
  - apply elem_of_cons in Hin as [-> | Hin].
    + apply (select_unavailable_mono _ _ _ _ _ _ Hrec). simpl. set_solver.
    + by apply (IH _ _ _ _ Hrec).
  - apply list_elem_of_singleton in Hin as ->.
    rewrite (try_import_raises _ _ _ _ Hi) in Ht. congruence.
Qed.

(** An exception that leaves the call is the conflict, or it is not an
    [ImportError] and is the very exception the last import, or the patch
    step after it, raised; the variant concerned is not recorded. *)
Lemma select_raise_inv E cands st e st' tr :
  select E cands st = (Raise e, st', tr) →
  (∃ n, e = conflict_exn st n ∧ conflict (imported_module st) n = true)
  ∨ (isinstance e ImportError = false
     ∧ ∃ n, last (imports tr) = Some n ∧ (n ∉ not_available_modules st')
            ∧ (import_raises E (sys_modules st) n e
               ∨ patch_raises E (sys_modules st) n e)).
Proof.
  revert st tr. induction cands as [|[arg c] rest IH]; intros st tr Hsel; [done|].
  apply select_cons_inv in Hsel
    as [[_ Hrec] | (Hna & Hsi & [(Hc & He & _) |
         (Hc & [(_ & ? & _) | [(e' & tr' & _ & _ & Hrec & ->) | (e' & Ht & Hie' & He & ->)]])])].
  - eauto.
  - left. exists c. by simplify_eq.
  - done.
  - destruct (IH _ _ Hrec) as [(n & -> & Hcn) | (Hie & n & Hl & Hn & Hor)].
    + left. by exists n.
    + right. split; [done|]. exists n. split_and!; [|done|done].
      simpl. destruct (imports tr'); [done|]. done.
  - simplify_eq. right. split; [done|]. exists c.
    destruct (try_import_raise_inv _ _ _ _ _ Ht) as [Heq Hor].
    split_and!; [done| |done]. by rewrite Heq.
Qed.

Lemma try_import_patch_raises E n st e :
  patch_raises E (sys_modules st) n e → ∃ st', try_import E n st = (Raise e, st').
Proof.
  intros (l & Hl & Hp). revert Hl.
  unfold try_import, import_module, module_of.
  destruct (sys_modules st !! n) as [l0|] eqn:Hl0.
  - intros [= ->]. unfold patch_handle.
    cbn [sys_modules imported_module not_available_modules]. rewrite Hl0.
    destruct (monkey_patch_llama_cpp_python l) as [r l']. simpl in Hp. subst r. eauto.
  - destruct (find_module E n) as [l0|e0]; [|done]. intros [= ->].
    unfold patch_handle. cbn [sys_modules imported_module not_available_modules].
    rewrite lookup_insert_eq.
    destruct (monkey_patch_llama_cpp_python l) as [r l']. simpl in Hp. subst r. eauto.
Qed.

Lemma import_or_patch_raises_functional E mods n e e' :
  import_raises E mods n e ∨ patch_raises E mods n e →
  import_raises E mods n e' → e = e'.
Proof.
  unfold import_raises, patch_raises, module_of.
  intros [[_ Hf] | (l & Hl & _)] [Hn Hf'].
  - congruence.
  - rewrite Hn, Hf' in Hl. done.
Qed.

(** A failure of the import or of the patch step that is not an
    [ImportError] ends the call: it is what the call raises, at its last
    import, and the variant is not recorded. *)
Lemma select_propagates E cands st r st' tr n e :
  select E cands st = (r, st', tr) →
  n ∈ imports tr →
  import_raises E (sys_modules st) n e ∨ patch_raises E (sys_modules st) n e →
  isinstance e ImportError = false →
  r = Raise e ∧ last (imports tr) = Some n ∧ n ∉ not_available_modules st'.
Proof.
  revert st r st' tr. induction cands as [|[arg c] rest IH];
    intros st r st' tr Hsel Hin Hor Hie.
  { simplify_eq/=. by apply elem_of_nil in Hin. }
  assert (∃ st1, try_import E n st = (Raise e, st1)) as [st1 Htry].
  { destruct Hor as [Hi | Hp]; [|by apply try_import_patch_raises].
    exists st. by apply try_import_raises. }
  apply select_cons_inv in Hsel
    as [[_ Hrec] | (Hna & Hsi & [(_ & _ & _ & ->) |
         (Hc & [(Ht & _ & ->) | [(e' & tr' & Hi' & Hie' & Hrec & ->) | (e' & Ht & _ & -> & ->)]])])];
    simpl in Hin.
  - eauto.
  - by apply elem_of_nil in Hin.
  - apply list_elem_of_singleton in Hin as ->. congruence.
  - apply elem_of_cons in Hin as [-> | Hin].
    + rewrite (import_or_patch_raises_functional _ _ _ _ _ Hor Hi') in Hie. congruence.
    + destruct (IH _ _ _ _ Hrec Hin Hor Hie) as (-> & Hl & Hn).
      split_and!; [done| |done]. simpl. by destruct (imports tr').
  - apply list_elem_of_singleton in Hin as ->.
    destruct (try_import_raise_inv _ _ _ _ _ Ht) as [Heq _].
    split_and!; [congruence|done|by rewrite Heq].
Qed.

(** C6, as stated, fails: the handler is [except ImportError], so an import
    failure that is an [ImportError] without being "module not found" is
    recovered and recorded as well, rather than propagated. *)
Lemma other_import_errors_are_recovered :
  let e := Exn ImportError "DLL load failed while importing llama_cpp" in
  let E := Env "Darwin" (flags []) (λ _, Raise e) in
  exn_class e ≠ ModuleNotFoundError
  ∧ import_raises E (sys_modules init_state) "llama_cpp" e
  ∧ llama_cpp_lib E init_state
    = (Return None, State None {["llama_cpp"]} ∅, [ImportCall "llama_cpp"]).
Proof. by vm_compute. Qed.

(** C6, amended.  The failures recovered locally are exactly the import
    failures that are instances of [ImportError], module-not-found among
    them: the names a call adds to the unavailable set are those whose import
    raised such an exception in that call, and after each of them the loop
    goes on with the next candidate.  A failure of any other class, raised by
    the import or by the patch step, ends the call as the exception the call
    raises, unchanged, and its variant is not recorded; besides the conflict
    a call raises nothing else. *)
Theorem import_errors_recovered_others_propagate E st r st' tr :
  llama_cpp_lib E st = (r, st', tr) →
  (∀ n, n ∈ not_available_modules st' ↔
        n ∈ not_available_modules st
        ∨ (n ∈ imports tr
           ∧ ∃ e, import_raises E (sys_modules st) n e ∧ isinstance e ImportError = true))
  ∧ (∀ n e, n ∈ imports tr →
       import_raises E (sys_modules st) n e ∨ patch_raises E (sys_modules st) n e →
       isinstance e ImportError = false →
       r = Raise e ∧ last (imports tr) = Some n ∧ (n ∉ not_available_modules st'))
  ∧ (∀ e, r = Raise e →
       (∃ n, e = conflict_exn st n ∧ conflict (imported_module st) n = true)
       ∨ (isinstance e ImportError = false
          ∧ ∃ n, last (imports tr) = Some n ∧ (n ∉ not_available_modules st')
                 ∧ (import_raises E (sys_modules st) n e
                    ∨ patch_raises E (sys_modules st) n e)))
  ∧ (∀ arg n rest st0 e,
       n ∉ not_available_modules st0 →
       should_import E arg = true →
       conflict (imported_module st0) n = false →
       import_raises E (sys_modules st0) n e →
       isinstance e ImportError = true →
       select E ((arg, n) :: rest) st0
       = (let '(r, st3, tr) := select E rest (mark_unavailable n st0) in
          (r, st3, ImportCall n :: tr))).
Proof.
  unfold llama_cpp_lib. intros Hsel. split_and!.
  - intros n. split.
    + by apply (select_unavailable_origin _ _ _ _ _ _ Hsel).
    + intros [Hin | (Hin & e & Hi & Hie)].
      * by apply (select_unavailable_mono _ _ _ _ _ _ Hsel).
      * by apply (select_records _ _ _ _ _ _ _ _ Hsel Hin Hi Hie).
  - intros n e Hin Hor Hie.
    by apply (select_propagates _ _ _ _ _ _ _ _ Hsel Hin Hor Hie).
  - intros e ->. by apply (select_raise_inv _ _ _ _ _ _ Hsel).
  - intros arg n rest st0 e ? ? ? ? ?. by apply (select_recovers _ _ _ _ _ e).
Qed.

(** On Linux, the CUDA build fails to load its shared library with an
    [ImportError] and is recorded; the fallback then fails with an [OSError],
    which ends the call. *)
Lemma import_errors_recovered_others_propagate_witness :
  let E := Env "Linux" (flags [])
             (λ n, if bool_decide (n = "llama_cpp_cuda")
                   then Raise (Exn ImportError "libcudart.so.12: cannot open shared object file")
                   else Raise (Exn OSError "libllama.so: cannot open shared object file")) in
  let st := init_state in
  let r : outcome (option handle) :=
    Raise (Exn OSError "libllama.so: cannot open shared object file") in
  let st' := State None {["llama_cpp_cuda"]} ∅ in
  let tr := [ImportCall "llama_cpp_cuda"; ImportCall "llama_cpp"] in
  (∀ n, n ∈ not_available_modules st' ↔
        n ∈ not_available_modules st
        ∨ (n ∈ imports tr
           ∧ ∃ e, import_raises E (sys_modules st) n e ∧ isinstance e ImportError = true))
  ∧ (∀ n e, n ∈ imports tr →
       import_raises E (sys_modules st) n e ∨ patch_raises E (sys_modules st) n e →
       isinstance e ImportError = false →
       r = Raise e ∧ last (imports tr) = Some n ∧ (n ∉ not_available_modules st'))
  ∧ (∀ e, r = Raise e →
       (∃ n, e = conflict_exn st n ∧ conflict (imported_module st) n = true)
       ∨ (isinstance e ImportError = false
          ∧ ∃ n, last (imports tr) = Some n ∧ (n ∉ not_available_modules st')
                 ∧ (import_raises E (sys_modules st) n e
                    ∨ patch_raises E (sys_modules st) n e)))
  ∧ (∀ arg n rest st0 e,
       n ∉ not_available_modules st0 →
       should_import E arg = true →
       conflict (imported_module st0) n = false →
       import_raises E (sys_modules st0) n e →
       isinstance e ImportError = true →
       select E ((arg, n) :: rest) st0
       = (let '(r, st3, tr) := select E rest (mark_unavailable n st0) in
          (r, st3, ImportCall n :: tr))).
Proof.
  intros E st r st' tr.
  apply (import_errors_recovered_others_propagate E st r st' tr). by vm_compute.
Defined.

(** ** No candidate left *)

Lemma select_exhausted E cands st :
  exhausted_quietly E st cands →
  ∃ st' tr, select E cands st = (Return None, st', tr)
    ∧ imported_module st' = imported_module st
    ∧ sys_modules st' = sys_modules st
    ∧ not_available_modules st ⊆ not_available_modules st'.
Proof.
  revert st. induction cands as [|[arg c] rest IH]; intros st Hex.
  { by exists st, []. }
  assert (∀ st1, imported_module st1 = imported_module st →
                 sys_modules st1 = sys_modules st →
                 not_available_modules st ⊆ not_available_modules st1 →
                 exhausted_quietly E st1 rest) as Hrest.
  { intros st1 Hm Hs Hsub arg' n Hin.
    destruct (Hex arg' n) as [? | [? | ?]]; [set_solver|left; set_solver|by right; left|].
    right. right. by rewrite Hm, Hs. }
  simpl. case_bool_decide as Hna; [by apply IH, Hrest|].
  destruct (should_import E arg) eqn:Hsi; [|by apply IH, Hrest].
  destruct (Hex arg c) as [? | [? | (Hm & e & Hi & Hie)]]; [set_solver|done|congruence|].
  assert (conflict (imported_module st) c = false) as ->.
  { destruct Hm as [-> | ->]; [done|]. unfold conflict.
    by rewrite (bool_decide_eq_true_2 (c = c)), andb_false_r. }
  rewrite (try_import_raises _ _ _ _ Hi), Hie.
  destruct (IH (mark_unavailable c st)) as (st' & tr & Hsel & ? & ? & Hsub).
  { apply Hrest; simpl; [done|done|set_solver]. }
  unfold mark_unavailable in Hsel. rewrite Hsel.
  exists st', (ImportCall c :: tr). simpl in *. split_and!; [done|done|done|set_solver].
Qed.

(** C7, as stated, fails on two counts.  When another variant is loaded, the
    first candidate the loop reaches raises the conflict before any import is
    tried, although its import would fail; and an import that fails with
    something else than an [ImportError] raises that exception. *)
Lemma exhausted_call_can_raise :
  let inst := installed ["llama_cpp_cuda_tensorcores"] in
  let E1 := Env "Linux" (flags ["tensorcores"]) inst in
  let E2 := Env "Linux" (flags []) inst in
  let st := (run_calls [E1] init_state).2 in
  let E3 := Env "Darwin" (flags [])
              (λ _, Raise (Exn OSError "libllama.dylib: cannot open shared object file")) in
  (exhausted E2 st (lib_names (platform_system E2))
   ∧ (llama_cpp_lib E2 st).1.1
     = Raise (Exn Exception
                (conflict_message "llama_cpp_cuda" "llama_cpp_cuda_tensorcores"))
   ∧ (llama_cpp_lib E2 st).1.1 ≠ Return None)
  ∧ (exhausted E3 init_state (lib_names (platform_system E3))
     ∧ (llama_cpp_lib E3 init_state).1.1
       = Raise (Exn OSError "libllama.dylib: cannot open shared object file")
     ∧ (llama_cpp_lib E3 init_state).1.1 ≠ Return None).
Proof.
  intros inst E1 E2 st E3. split; (split; [|by vm_compute]).
  - intros arg n Hin. simpl in Hin.
    repeat (apply elem_of_cons in Hin as [[= -> ->] | Hin]);
      [by right; left|by right; left| | |by apply elem_of_nil in Hin].
    + right. right. eexists. by vm_compute.
    + right. right. eexists. by vm_compute.
  - intros arg n Hin. simpl in Hin.
    apply list_elem_of_singleton in Hin as [= -> ->].
    right. right. eexists. by vm_compute.
Qed.

(** C7, amended.  When every candidate of the platform is in the unavailable
    set, ruled out by the configuration, or fails to import with an
    [ImportError] while no different variant is loaded, the call returns
    [None] and raises nothing.  It leaves the marker and the loaded modules
    alone and only adds to the unavailable set. *)
Theorem no_candidate_returns_none (E : env) (st : state) :
  exhausted_quietly E st (lib_names (platform_system E)) →
  ∃ st' tr, llama_cpp_lib E st = (Return None, st', tr)
    ∧ imported_module st' = imported_module st
    ∧ sys_modules st' = sys_modules st
    ∧ not_available_modules st ⊆ not_available_modules st'.
Proof. apply select_exhausted. Qed.

(** Nothing is installed: every candidate is recorded, the call returns
    [None]. *)
Lemma no_candidate_returns_none_witness :
  let E := Env "Linux" (flags ["cpu"]) (installed []) in
  ∃ st' tr, llama_cpp_lib E init_state = (Return None, st', tr)
    ∧ imported_module st' = imported_module init_state
    ∧ sys_modules st' = sys_modules init_state
    ∧ not_available_modules init_state ⊆ not_available_modules st'.
Proof.
  intros E. apply (no_candidate_returns_none E init_state).
  intros arg n Hin. simpl in Hin.
  repeat (apply elem_of_cons in Hin as [[= -> ->] | Hin]);
    [| by right; left | | | by apply elem_of_nil in Hin];
    (right; right; split; [by left|]; eexists; by vm_compute).
Defined.

(** ** Slices and ranges *)

Lemma slice_bound_nat (len a : nat) : slice_bound len (Z.of_nat a) = min a len.
Proof.
  unfold slice_bound. destruct (Z.ltb_spec (Z.of_nat a) 0); lia.
Qed.

(** A slice with bounds inside the sequence. *)
Lemma py_slice_nat {A} (l : list A) (a b : nat) :
  (a ≤ b)%nat → (b ≤ length l)%nat →
  py_slice l (Z.of_nat a) (Z.of_nat b) = take (b - a) (drop a l).
Proof.
  intros Hab Hb. unfold py_slice. rewrite !slice_bound_nat.
  by rewrite !Nat.min_l by lia.
Qed.

Lemma chunk_length {A} (s : nat) (l : list A) (j : nat) :
  length (chunk s l j) = min s (length l - j * s).
Proof. unfold chunk. by rewrite length_take, length_drop. Qed.

(** The slice the loop takes at index [j * s] is the [j]-th batch. *)
Lemma batch_is_chunk {A} (l : list A) (s j : nat) :
  (0 < s)%nat → (j * s ≤ length l)%nat →
  py_slice l (Z.of_nat j * Z.of_nat s)
             (Z.min (Z.of_nat (length l)) (Z.of_nat j * Z.of_nat s + Z.of_nat s))
  = chunk s l j.
Proof.
  intros Hs Hj.
  replace (Z.of_nat j * Z.of_nat s)%Z with (Z.of_nat (j * s)) by lia.
  replace (Z.min (Z.of_nat (length l)) (Z.of_nat (j * s) + Z.of_nat s))
    with (Z.of_nat (min (length l) (j * s + s))) by lia.
  rewrite py_slice_nat by lia. unfold chunk.
  destruct (Nat.le_ge_cases (j * s + s) (length l)) as [Hle | Hge].
  - f_equal. lia.
  - rewrite Nat.min_l by lia.
    rewrite !take_ge; [done|rewrite length_drop; lia|rewrite length_drop; lia].
Qed.

(** The batches taken so far, put end to end, are the tokens consumed. *)
Lemma take_chunk_step {A} (l : list A) (s j : nat) :
  take (S j * s) l = take (j * s) l ++ chunk s l j.
Proof.
  unfold chunk. replace (S j * s) with (j * s + s) by lia.
  by rewrite take_take_drop.
Qed.

Lemma take_min_length {A} (l : list A) (n : nat) :
  take (min n (length l)) l = take n l.
Proof.
  destruct (Nat.le_ge_cases n (length l)).
  - by rewrite Nat.min_l.
  - rewrite Nat.min_r by done. by rewrite !take_ge.
Qed.

(** The number of indices of [range(0, L, s)]. *)
Lemma range_count (L s : nat) (j : nat) :
  (0 < s)%nat →
  (j < Z.to_nat ((Z.of_nat L + Z.of_nat s - 1) / Z.of_nat s))%nat ↔ (j * s < L)%nat.
Proof.
  intros Hs.
  assert (0 ≤ (Z.of_nat L + Z.of_nat s - 1) / Z.of_nat s)%Z by (apply Z.div_pos; lia).
  split; intros Hj.
  - assert (Z.of_nat j + 1 ≤ (Z.of_nat L + Z.of_nat s - 1) / Z.of_nat s)%Z as Hq by lia.
    pose proof (Z.mul_div_le (Z.of_nat L + Z.of_nat s - 1) (Z.of_nat s)). nia.
  - assert (Z.of_nat j + 1 ≤ (Z.of_nat L + Z.of_nat s - 1) / Z.of_nat s)%Z; [|lia].
    apply Z.div_le_lower_bound; nia.
Qed.

Lemma py_range_positive (L : nat) (step : Z) :
  (0 < step)%Z →
  py_range (Z.of_nat L) step
  = Return (map (λ k : nat, (Z.of_nat k * step)%Z)
                (seq 0 (Z.to_nat ((Z.of_nat L + step - 1) / step)))).
Proof.
  intros Hs. unfold py_range.
  destruct (Z.eqb_spec step 0); [lia|]. destruct (Z.ltb_spec step 0); [lia|done].
Qed.

(** ** Array assignments *)

Lemma np_assign_fits {A} (l : list A) (start : nat) (vals : list A) :
  np_assign l start (length vals) vals
  = Return (take start l ++ vals ++ drop (start + length vals) l).
Proof. unfold np_assign. by rewrite bool_decide_eq_true_2. Qed.

(** With room for them, [arr[a : a + len(vals)] = vals] stores the values. *)
Lemma np_set_slice_fits {A} (arr : list A) (a : nat) (vals : list A) :
  (a + length vals ≤ length arr)%nat →
  np_set_slice arr (Z.of_nat a) (Z.of_nat a + Z.of_nat (length vals)) vals
  = Return (take a arr ++ vals ++ drop (a + length vals) arr).
Proof.
  intros Hfit. unfold np_set_slice.
  replace (Z.of_nat a + Z.of_nat (length vals))%Z
    with (Z.of_nat (a + length vals)) by lia.
  rewrite !slice_bound_nat, !Nat.min_l by lia.
  replace (a + length vals - a) with (length vals) by lia.
  apply np_assign_fits.
Qed.

Lemma np_set_rows_shape {A} (arr arr' : array2 A) (a b : Z) (vals : list A) :
  np_set_rows arr a b vals = Return arr' →
  shape0 arr' = shape0 arr ∧ shape1 arr' = shape1 arr.
Proof.
  unfold np_set_rows. destruct (np_assign _ _ _ _); [|done]. by intros [= <-].
Qed.

Lemma np_set_row_shape {A} (arr arr' : array2 A) (i : Z) (vals : list A) :
  np_set_row arr i vals = Return arr' →
  shape0 arr' = shape0 arr ∧ shape1 arr' = shape1 arr.
Proof.
  unfold np_set_row. destruct (np_index _ _); [|done].
  destruct (np_assign _ _ _ _); [|done]. by intros [= <-].
Qed.

(** An index between zero and the last row is accepted as it is. *)
Lemma np_index_in_bounds (n : nat) (i : Z) :
  (0 ≤ i < Z.of_nat n)%Z → np_index n i = Return (Z.to_nat i).
Proof.
  intros Hi. unfold np_index.
  destruct (Z.ltb_spec i (- Z.of_nat n)); [lia|].
  destruct (Z.leb_spec (Z.of_nat n) i); [lia|]. simpl.
  destruct (Z.ltb_spec i 0); [lia|done].
Qed.

Lemma splice_length {A} (l : list A) (p : nat) (v : list A) :
  (p + length v ≤ length l)%nat → length (splice l p v) = length l.
Proof.
  intros Hfit. unfold splice. rewrite !length_app, length_take, length_drop. lia.
Qed.

(** Storing [w] right behind a stored [v] stores [v ++ w]. *)
Lemma splice_extend {A} (l : list A) (p : nat) (v w : list A) :
  (p + length v ≤ length l)%nat →
  take (p + length v) (splice l p v) ++ w
    ++ drop (p + length v + length w) (splice l p v)
  = splice l p (v ++ w).
Proof.
  intros Hfit. unfold splice.
  assert (length (take p l ++ v) = p + length v)%nat as Hlen.
  { rewrite length_app, length_take. lia. }
  rewrite (assoc_L (++) (take p l) v).
  rewrite take_app_length' by done.
  rewrite drop_app_ge by lia. rewrite Hlen.
  replace (p + length v + length w - (p + length v))%nat with (length w) by lia.
  rewrite drop_drop, length_app.
  rewrite <- !(assoc_L (++)). do 4 f_equal. lia.
Qed.

(** Reading back what was stored. *)
Lemma py_slice_splice {A} (l : list A) (p : nat) (v : list A) :
  (p + length v ≤ length l)%nat →
  py_slice (splice l p v) (Z.of_nat p) (Z.of_nat p + Z.of_nat (length v)) = v.
Proof.
  intros Hfit.
  replace (Z.of_nat p + Z.of_nat (length v))%Z with (Z.of_nat (p + length v)) by lia.
  rewrite py_slice_nat; [|lia|by rewrite splice_length].
  unfold splice. rewrite drop_app_length' by (rewrite length_take; lia).
  replace (p + length v - p)%nat with (length v) by lia.
  by rewrite take_app_length.
Qed.

(** ** The evaluation loop *)

Section EvalProperties.

Context {F : Type}.
Variable ctx_decode : Z → list Z → option exn.
Variable ctx_get_logits : Z → list Z → nat → F.

Local Abbreviation step := (eval_step F ctx_decode ctx_get_logits).
Local Abbreviation loop := (eval_loop F ctx_decode ctx_get_logits).

Lemma steady_refl (self : llama F) : steady self self.
Proof. unfold steady. split_and!; [lia|done..]. Qed.

(** One iteration: what it records, and that it keeps the instance steady
    whatever its outcome. *)
Lemma eval_step_steady tokens i (self0 self : llama F) r self' its :
  steady self0 self →
  step tokens i self = (r, self', its) →
  let batch := py_slice tokens i (Z.min (Z.of_nat (length tokens)) (i + n_batch self)) in
  steady self0 self'
  ∧ Forall (λ it, it_n_past it = n_tokens self ∧ it_batch it = batch) its
  ∧ (batch ≠ [] →
     Forall (row_ok (shape0 (scores self0)) (n_tokens self0)) its)
  ∧ (r = Return tt →
     n_tokens self' = (n_tokens self + Z.of_nat (length batch))%Z
     ∧ length its = 1%nat
     ∧ (logits_all self0 = false → Forall (λ it, is_Some (it_row it)) its)).
Proof.
  intros (Hn & Hb & Hl & Hv & Hs0 & Hs1) Hstep batch.
  assert (batch ≠ [] → ∀ idx,
            idx = Z.min (n_tokens self + Z.of_nat (length batch) - 1)
                        (Z.of_nat (shape0 (scores self)) - 1) →
            row_ok (shape0 (scores self0)) (n_tokens self0)
                   (Iteration (n_tokens self) batch (Some idx))) as Hrow.
  { intros Hne idx -> idx' [= <-]. simpl. rewrite Hs0.
    assert (0 < length batch)%nat by (destruct batch; [done|simpl; lia]).
    split_and!; [done|lia|]. intros Hlo HR.
    assert (0 ≤ Z.min (n_tokens self + Z.of_nat (length batch) - 1)
                      (Z.of_nat (shape0 (scores self0)) - 1)
            < Z.of_nat (shape0 (scores self0)))%Z as Hin by lia.
    split; [done|]. by apply np_index_in_bounds. }
  revert Hstep. unfold eval_step. fold batch.
  destruct (ctx_decode (n_tokens self) batch) as [e|].
  { intros [= <- <- <-]. split_and!; [done|constructor|constructor|done]. }
  destruct (np_set_slice (input_ids self) _ _ batch) as [ids|e].
  2:{ intros [= <- <- <-].
      split_and!; [done|by repeat constructor| |done].
      intros _. constructor; [by intros ? [=]|constructor]. }
  destruct (logits_all self) eqn:Hla.
  - destruct (np_set_rows _ _ _ _) as [sc|e] eqn:Hsc; intros [= <- <- <-].
    + destruct (np_set_rows_shape _ _ _ _ _ Hsc) as [Hsc0 Hsc1]. simpl.
      split_and!.
      * unfold steady; simpl. split_and!; [lia|done|congruence|done|congruence..].
      * by repeat constructor.
      * intros _. constructor; [by intros ? [=]|constructor].
      * intros _. split_and!; [done|done|]. congruence.
    + split_and!; [|by repeat constructor| |done].
      * unfold steady; simpl. by split_and!.
      * intros _. constructor; [by intros ? [=]|constructor].
  - destruct (np_set_row _ _ _) as [sc|e] eqn:Hsc; intros [= <- <- <-].
    + destruct (np_set_row_shape _ _ _ _ Hsc) as [Hsc0 Hsc1]. simpl.
      split_and!.
      * unfold steady; simpl. split_and!; [lia|done|congruence|done|congruence..].
      * by repeat constructor.
      * intros Hne. constructor; [by apply Hrow|constructor].
      * intros _. split_and!; [done|done|]. intros _. repeat constructor. by eexists.
    + split_and!; [|by repeat constructor| |done].
      * unfold steady; simpl. by split_and!.
      * intros Hne. constructor; [by apply Hrow|constructor].
Qed.

Lemma chunk_nonempty (tokens : list Z) (s j : nat) :
  (0 < s)%nat → (j * s < length tokens)%nat → chunk s tokens j ≠ [].
Proof.
  intros Hs Hj Hnil. apply (f_equal length) in Hnil.
  rewrite chunk_length in Hnil. simpl in Hnil. lia.
Qed.

(** The loop over the indices [j * s, ..., (j + m - 1) * s]. *)
Lemma eval_loop_rows tokens (self0 : llama F) (s m : nat) :
  ∀ j self r self' its,
  (0 < s)%nat → n_batch self0 = Z.of_nat s →
  steady self0 self →
  (∀ k, (j ≤ k < j + m)%nat → (k * s < length tokens)%nat) →
  loop tokens (map (λ k : nat, (Z.of_nat k * Z.of_nat s)%Z) (seq j m)) self
    = (r, self', its) →
  steady self0 self'
  ∧ Forall (row_ok (shape0 (scores self0)) (n_tokens self0)) its
  ∧ (r = Return tt → logits_all self0 = false →
     Forall (λ it, is_Some (it_row it)) its).
Proof.
  induction m as [|m IH]; intros j self r self' its Hs Hnb Hst Hidx Hloop.
  { simpl in Hloop. simplify_eq. split_and!; [done|constructor|constructor]. }
  simpl in Hloop.
  destruct (step tokens _ self) as [[r1 self1] its1] eqn:Hstep.
  pose proof (eval_step_steady _ _ _ _ _ _ _ Hst Hstep) as (Hst1 & _ & Hrows & Hret).
  destruct Hst as (_ & Hb & _).
  rewrite Hb, Hnb, batch_is_chunk in Hrows, Hret
    by (try done; specialize (Hidx j); lia).
  specialize (Hrows (chunk_nonempty _ _ _ Hs (Hidx j ltac:(lia)))).
  destruct r1 as [[]|e]; [|by simplify_eq].
  destruct (loop tokens _ self1) as [[r2 self2] its2] eqn:Hrec.
  apply (IH (S j)) in Hrec as (Hst2 & Hrows2 & Hsome2);
    [|done|done|done|intros k Hk; apply Hidx; lia].
  simplify_eq. destruct (Hret eq_refl) as (_ & _ & Hsome1).
  split_and!; [done|by apply Forall_app|].
  intros -> Hla. apply Forall_app. auto.
Qed.

(** With room in [input_ids], an iteration stores its batch right behind
    the tokens stored before it. *)
Lemma eval_step_progress tokens (self0 self : llama F) (s j : nat) r self' its :
  (0 < s)%nat → n_batch self0 = Z.of_nat s → (0 ≤ n_tokens self0)%Z →
  (Z.to_nat (n_tokens self0) + length tokens ≤ length (input_ids self0))%nat →
  steady self0 self → progress tokens self0 j self →
  (j * s < length tokens)%nat →
  step tokens (Z.of_nat j * Z.of_nat s) self = (r, self', its) →
  (r = Return tt →
     progress tokens self0 (S j) self' ∧ map it_batch its = [chunk s tokens j])
  ∧ ((∀ n b, ctx_decode n b = None) → scores_fit self0 (length tokens) →
     r = Return tt).
Proof.
  intros Hs Hnb Hlo Hroom (Hn & Hb & Hl & Hv & Hs0 & Hs1) [Hcount Hids] Hj.
  unfold progress in *. rewrite Hnb, Nat2Z.id in *.
  set (p := Z.to_nat (n_tokens self0)) in *.
  set (consumed := take (j * s) tokens) in *.
  assert (length consumed = j * s)%nat as Hlen
    by (unfold consumed; rewrite length_take; lia).
  pose proof (chunk_length s tokens j) as Hclen.
  assert (Z.of_nat p = n_tokens self0) as Hp by (unfold p; lia).
  assert (n_tokens self = Z.of_nat (p + length consumed)) as Hpast by lia.
  unfold eval_step. rewrite Hb, batch_is_chunk by (try done; lia).
  set (batch := chunk s tokens j) in *.
  replace (n_tokens self + Z.of_nat (length batch))%Z
    with (Z.of_nat (p + length consumed) + Z.of_nat (length batch))%Z by lia.
  rewrite Hpast, Hids, np_set_slice_fits by (rewrite splice_length; lia).
  rewrite splice_extend by lia.
  replace (consumed ++ batch) with (take (S j * s) tokens)
    by (unfold consumed, batch; apply take_chunk_step).
  assert (length (take (S j * s) tokens) = length consumed + length batch)%nat as Hlen'.
  { unfold consumed, batch. by rewrite take_chunk_step, length_app. }
  destruct (ctx_decode _ batch) as [e|] eqn:Hdec.
  { intros [= <- <- <-]. split; [done|]. intros Hok. by rewrite Hok in Hdec. }
  rewrite Hl. destruct (logits_all self0) eqn:Hla.
  - destruct (np_set_rows _ _ _ _) as [sc|e] eqn:Hsc; intros [= <- <- <-].
    + split; [|done]. intros _. cbn [n_tokens input_ids map it_batch].
      split; [|done]. split; [lia|done].
    + split; [done|]. intros _ [Hcols Hrows]. rewrite Hla in Hrows.
      exfalso. revert Hsc.
      unfold np_set_rows, as_array.
      replace (Z.of_nat (p + length consumed) + Z.of_nat (length batch))%Z
        with (Z.of_nat (p + length consumed + length batch)) by lia.
      rewrite !slice_bound_nat, Hs0, Hs1, Hcols, Hv.
      rewrite !Nat.min_l by (fold p in Hrows; lia).
      unfold np_assign. rewrite bool_decide_eq_true_2; [done|].
      rewrite length_map, length_seq. f_equal. lia.
  - destruct (np_set_row _ _ _) as [sc|e] eqn:Hsc; intros [= <- <- <-].
    + split; [|done]. intros _. cbn [n_tokens input_ids map it_batch].
      split; [|done]. split; [lia|done].
    + split; [done|]. intros _ [Hcols Hrows]. rewrite Hla in Hrows.
      exfalso. revert Hsc.
      unfold np_set_row, as_array. rewrite Hs0.
      rewrite np_index_in_bounds by lia.
      unfold np_assign. rewrite Hs1, Hcols, Hv.
      rewrite bool_decide_eq_true_2; [done|].
      rewrite length_map, length_seq. lia.
Qed.

Lemma eval_loop_progress tokens (self0 : llama F) (s m : nat) :
  ∀ j self r self' its,
  (0 < s)%nat → n_batch self0 = Z.of_nat s → (0 ≤ n_tokens self0)%Z →
  (Z.to_nat (n_tokens self0) + length tokens ≤ length (input_ids self0))%nat →
  steady self0 self → progress tokens self0 j self →
  (∀ k, (j ≤ k < j + m)%nat → (k * s < length tokens)%nat) →
  loop tokens (map (λ k : nat, (Z.of_nat k * Z.of_nat s)%Z) (seq j m)) self
    = (r, self', its) →
  (r = Return tt →
     progress tokens self0 (j + m) self'
     ∧ take (j * s) tokens ++ concat (map it_batch its) = take ((j + m) * s) tokens)
  ∧ ((∀ n b, ctx_decode n b = None) → scores_fit self0 (length tokens) →
     r = Return tt).
Proof.
  induction m as [|m IH];
    intros j self r self' its Hs Hnb Hlo Hroom Hst Hpr Hidx Hloop.
  { simpl in Hloop. simplify_eq. rewrite Nat.add_0_r. simpl.
    by rewrite app_nil_r. }
  simpl in Hloop.
  destruct (step tokens _ self) as [[r1 self1] its1] eqn:Hstep.
  pose proof (eval_step_steady _ _ _ _ _ _ _ Hst Hstep) as (Hst1 & _).
  pose proof (eval_step_progress _ _ _ _ _ _ _ _ Hs Hnb Hlo Hroom Hst Hpr
                (Hidx j ltac:(lia)) Hstep) as [Hpr1 Htot1].
  destruct r1 as [[]|e].
  - destruct (Hpr1 eq_refl) as [Hpr1' Hb1].
    destruct (loop tokens _ self1) as [[r2 self2] its2] eqn:Hrec.
    apply (IH (S j)) in Hrec as [Hpr2 Htot2];
      [|done|done|done|done|done|done|intros k Hk; apply Hidx; lia].
    simplify_eq. split; [|done]. intros ->.
    destruct (Hpr2 eq_refl) as [Hpr2' Hcat].
    replace (j + S m)%nat with (S j + m)%nat by lia. split; [done|].
    rewrite take_chunk_step in Hcat.
    rewrite <- Hcat, map_app, concat_app, Hb1. cbn [concat].
    by rewrite app_nil_r, (assoc_L (++)).
  - simplify_eq. split; [done|]. auto.
Qed.

(** C9, amended.  When the batch size is positive and [input_ids] has room
    for the tokens behind the position [p] the counter starts at, a call
    that returns has taken every token once and in order: the batches the
    loop took, put end to end, are the input; [input_ids[p : p + len(tokens)]]
    holds the input; and the counter has gone up by [len(tokens)].  And the
    call does return when [decode] does not raise and the [scores] array
    has the shape the writes need. *)
Theorem eval_takes_tokens_in_order (self : llama F) (tokens : list Z) :
  (0 < n_batch self)%Z →
  (0 ≤ n_tokens self)%Z →
  (Z.to_nat (n_tokens self) + length tokens ≤ length (input_ids self))%nat →
  (∀ r self' its,
     eval_with_progress F ctx_decode ctx_get_logits self tokens = (r, self', its) →
     r = Return tt →
     concat (map it_batch its) = tokens
     ∧ py_slice (input_ids self') (n_tokens self)
                (n_tokens self + Z.of_nat (length tokens)) = tokens
     ∧ n_tokens self' = (n_tokens self + Z.of_nat (length tokens))%Z)
  ∧ ((∀ n b, ctx_decode n b = None) → scores_fit self (length tokens) →
     ∃ self' its,
       eval_with_progress F ctx_decode ctx_get_logits self tokens
       = (Return tt, self', its)).
Proof.
  intros Hnb Hlo Hroom.
  set (s := Z.to_nat (n_batch self)).
  assert (n_batch self = Z.of_nat s) as Hs by lia.
  assert (0 < s)%nat as Hspos by lia.
  set (cnt := Z.to_nat ((Z.of_nat (length tokens) + Z.of_nat s - 1) / Z.of_nat s)).
  assert (progress tokens self 0 self) as Hpr0.
  { unfold progress, splice. simpl. rewrite Nat.add_0_r, take_drop. split; [lia|done]. }
  assert (∀ k, (0 ≤ k < 0 + cnt)%nat → (k * s < length tokens)%nat) as Hidx.
  { intros k Hk. apply range_count; [done|]. fold cnt. lia. }
  assert (take (cnt * s) tokens = tokens) as Hall.
  { apply take_ge. destruct (Nat.le_gt_cases (length tokens) (cnt * s)); [done|].
    assert (cnt < cnt)%nat; [|lia]. by apply (range_count (length tokens) s cnt). }
  assert (∀ r self' its,
            eval_with_progress F ctx_decode ctx_get_logits self tokens = (r, self', its) →
            loop tokens (map (λ k : nat, (Z.of_nat k * Z.of_nat s)%Z) (seq 0 cnt)) self
            = (r, self', its)) as Hrun.
  { intros r self' its. unfold eval_with_progress.
    by rewrite Hs, py_range_positive by lia. }
  split.
  - intros r self' its Heval ->. apply Hrun in Heval.
    destruct (eval_loop_progress _ _ _ _ _ _ _ _ _ Hspos Hs Hlo Hroom
                (steady_refl self) Hpr0 Hidx Heval) as [Hpost _].
    destruct (Hpost eq_refl) as [[Hcount Hids] Hcat].
    simpl in Hcat, Hcount, Hids. fold s in Hcount, Hids.
    rewrite Hall in Hcat, Hcount, Hids. split_and!; [done| |done].
    rewrite Hids. replace (n_tokens self) with (Z.of_nat (Z.to_nat (n_tokens self))) at 2 3 by lia.
    by apply py_slice_splice.
  - intros Hdec Hfit.
    destruct (eval_with_progress F ctx_decode ctx_get_logits self tokens)
      as [[r self'] its] eqn:Heval.
    pose proof (Hrun _ _ _ eq_refl) as Hloop.
    destruct (eval_loop_progress _ _ _ _ _ _ _ _ _ Hspos Hs Hlo Hroom
                (steady_refl self) Hpr0 Hidx Hloop) as [_ Htot].
    rewrite (Htot Hdec Hfit). eauto.
Qed.

Lemma np_assign_raises {A} (l : list A) (start m : nat) (vals : list A) e :
  np_assign l start m vals = Raise e → exn_class e = ValueError.
Proof.
  unfold np_assign. case_bool_decide; [done|].
  destruct vals as [|v [|]]; [|done|]; by intros [= <-].
Qed.

Lemma replay_rows_app (cols : nat) (sc : array2 F) (its1 its2 : list iteration) :
  replay_rows ctx_get_logits cols sc (its1 ++ its2)
  = match replay_rows ctx_get_logits cols sc its1 with
    | Return sc' => replay_rows ctx_get_logits cols sc' its2
    | Raise e => Raise e
    end.
Proof.
  revert sc. induction its1 as [|it its1 IH]; intros sc; [done|].
  cbn [app replay_rows]. by destruct (np_set_row _ _ _).
Qed.

(** An iteration that returns has written the row the replay writes. *)
Lemma eval_step_replay tokens i (self self' : llama F) its :
  logits_all self = false →
  step tokens i self = (Return tt, self', its) →
  replay_rows ctx_get_logits (n_vocab self) (scores self) its = Return (scores self').
Proof.
  intros Hla. unfold eval_step.
  destruct (ctx_decode _ _); [done|].
  destruct (np_set_slice _ _ _ _) as [ids|]; [|done].
  rewrite Hla. destruct (np_set_row _ _ _) as [sc|] eqn:Hsc; [|done].
  intros [= <- <-]. cbn [replay_rows it_n_past it_batch scores]. by rewrite Hsc.
Qed.

Lemma eval_loop_replay tokens idxs :
  ∀ (self self' : llama F) its,
  logits_all self = false →
  loop tokens idxs self = (Return tt, self', its) →
  replay_rows ctx_get_logits (n_vocab self) (scores self) its = Return (scores self').
Proof.
  induction idxs as [|i rest IH]; intros self self' its Hla Hloop.
  { simpl in Hloop. by simplify_eq. }
  simpl in Hloop.
  destruct (step tokens i self) as [[r1 self1] its1] eqn:Hstep.
  destruct r1 as [[]|e]; [|done].
  pose proof (eval_step_steady _ _ _ _ _ _ _ (steady_refl self) Hstep)
    as ((_ & _ & Hl & Hv & _) & _).
  apply eval_step_replay in Hstep; [|done].
  destruct (loop tokens rest self1) as [[r2 self2] its2] eqn:Hrec.
  assert (r2 = Return tt) as -> by (by simplify_eq).
  apply IH in Hrec; [|congruence]. simplify_eq.
  by rewrite replay_rows_app, Hstep, <- Hv.
Qed.

(** Where an iteration without [logits_all] can raise: in [decode], in an
    assignment whose shapes do not agree, or in the index check of the row. *)
Lemma eval_step_raises tokens i (self self' : llama F) its e :
  logits_all self = false →
  step tokens i self = (Raise e, self', its) →
  let batch := py_slice tokens i (Z.min (Z.of_nat (length tokens)) (i + n_batch self)) in
  ctx_decode (n_tokens self) batch = Some e
  ∨ exn_class e = ValueError
  ∨ np_index (shape0 (scores self))
      (Z.min (n_tokens self + Z.of_nat (length batch) - 1)
             (Z.of_nat (shape0 (scores self)) - 1)) = Raise e.
Proof.
  intros Hla Hstep batch. revert Hstep. unfold eval_step. fold batch.
  destruct (ctx_decode _ _) as [e'|]; [intros [= <- <- <-]; by left|].
  unfold np_set_slice.
  destruct (np_assign (input_ids self) _ _ _) as [ids|e'] eqn:Hids.
  2:{ intros [= <- <- <-]. right. left. by apply np_assign_raises in Hids. }
  rewrite Hla. unfold np_set_row.
  destruct (np_index _ _) as [row|e'] eqn:Hrow; [|intros [= <- <- <-]; by right; right].
  destruct (np_assign (flat (scores self)) _ _ _) as [f|e'] eqn:Hf; [done|].
  intros [= <- <- <-]. right. left. by apply np_assign_raises in Hf.
Qed.

(** With a counter at zero or above and a row in [scores], the index check
    of the row never fails, so an [IndexError] can only come from [decode]. *)
Lemma eval_loop_index_error tokens (self0 : llama F) (s m : nat) :
  ∀ j self self' its e,
  (0 < s)%nat → n_batch self0 = Z.of_nat s →
  logits_all self0 = false →
  (0 ≤ n_tokens self0)%Z → (0 < shape0 (scores self0))%nat →
  steady self0 self →
  (∀ k, (j ≤ k < j + m)%nat → (k * s < length tokens)%nat) →
  loop tokens (map (λ k : nat, (Z.of_nat k * Z.of_nat s)%Z) (seq j m)) self
    = (Raise e, self', its) →
  exn_class e = IndexError →
  ∃ n_past batch, ctx_decode n_past batch = Some e.
Proof.
  induction m as [|m IH];
    intros j self self' its e Hs Hnb Hla Hlo HR Hst Hidx Hloop He; [done|].
  simpl in Hloop.
  destruct (step tokens _ self) as [[r1 self1] its1] eqn:Hstep.
  pose proof (eval_step_steady _ _ _ _ _ _ _ Hst Hstep) as (Hst1 & _).
  destruct r1 as [[]|e1].
  - destruct (loop tokens _ self1) as [[r2 self2] its2] eqn:Hrec.
    assert (r2 = Raise e) as -> by (by simplify_eq).
    apply (IH (S j) _ _ _ _ Hs Hnb Hla Hlo HR Hst1) in Hrec; [done| |done].
    intros k Hk. apply Hidx. lia.
  - assert (e1 = e) as -> by (by simplify_eq).
    destruct Hst as (Hn & Hb & Hl & _ & Hs0 & _).
    apply eval_step_raises in Hstep; [|congruence].
    pose proof (Hidx j ltac:(lia)) as Hj.
    rewrite Hb, Hnb, batch_is_chunk in Hstep by (try done; lia).
    pose proof (chunk_length s tokens j) as Hclen.
    destruct Hstep as [Hdec | [Hval | Hrow]]; [eauto|congruence|].
    rewrite np_index_in_bounds in Hrow; [done|]. rewrite Hs0. lia.
Qed.

(** C10.  With [logits_all] off, the row of [scores] an iteration writes is
    [min(n_past + n_tokens - 1, scores.shape[0] - 1)] for its batch, which
    never lies behind the last row, however far the token position has run.
    The array a call that returns leaves behind is the one these writes
    produce, batch after batch: every iteration has stored the logits of its
    batch in that row.  With a counter that started at zero or above and a
    [scores] array that has a row, NumPy accepts each index as a row index,
    and the call raises no [IndexError] unless [decode] does; when moreover
    [decode] does not raise, [input_ids] has room and a row holds [n_vocab]
    logits, the call returns, even where the positions run past the last row
    of [scores]. *)
Theorem scores_row_within_bounds (self : llama F) (tokens : list Z) r self' its :
  logits_all self = false →
  eval_with_progress F ctx_decode ctx_get_logits self tokens = (r, self', its) →
  Forall (λ it, ∀ idx, it_row it = Some idx →
            idx = Z.min (it_n_past it + Z.of_nat (length (it_batch it)) - 1)
                        (Z.of_nat (shape0 (scores self)) - 1)
            ∧ (idx ≤ Z.of_nat (shape0 (scores self)) - 1)%Z
            ∧ ((0 ≤ n_tokens self)%Z → (0 < shape0 (scores self))%nat →
                 (0 ≤ idx < Z.of_nat (shape0 (scores self)))%Z
                 ∧ np_index (shape0 (scores self)) idx = Return (Z.to_nat idx))) its
  ∧ (r = Return tt →
       Forall (λ it, is_Some (it_row it)) its
       ∧ replay_rows ctx_get_logits (n_vocab self) (scores self) its
         = Return (scores self'))
  ∧ ((0 ≤ n_tokens self)%Z → (0 < shape0 (scores self))%nat →
     ∀ e, r = Raise e → exn_class e = IndexError →
          ∃ n_past batch, ctx_decode n_past batch = Some e)
  ∧ ((0 < n_batch self)%Z → (0 ≤ n_tokens self)%Z → (0 < shape0 (scores self))%nat →
     shape1 (scores self) = n_vocab self →
     (Z.to_nat (n_tokens self) + length tokens ≤ length (input_ids self))%nat →
     (∀ n_past batch, ctx_decode n_past batch = None) →
     r = Return tt).
Proof.
  intros Hla. unfold eval_with_progress, py_range.
  destruct (Z.eqb_spec (n_batch self) 0).
  { intros [= <- <- <-].
    split_and!; [constructor|done|by intros _ _ e' [= <-]|lia]. }
  destruct (Z.ltb_spec (n_batch self) 0).
  { simpl. intros [= <- <- <-].
    split_and!; [constructor|by intros _; split; [constructor|]|done|done]. }
  set (s := Z.to_nat (n_batch self)).
  assert (n_batch self = Z.of_nat s) as Hs by lia.
  assert (0 < s)%nat as Hspos by lia.
  rewrite Hs. intros Hloop.
  assert (∀ k, (0 ≤ k < 0 + Z.to_nat ((Z.of_nat (length tokens) + Z.of_nat s - 1)
                                        / Z.of_nat s))%nat →
               (k * s < length tokens)%nat) as Hidx.
  { intros k Hk. apply range_count; [done|]. lia. }
  pose proof Hloop as Hloop'.
  apply (eval_loop_rows _ self s) in Hloop' as (_ & Hrows & Hsome);
    [|done|done|apply steady_refl|done].
  split_and!; [done| | |].
  - intros ->. split; [auto|]. by apply (eval_loop_replay _ _ _ _ _ Hla Hloop).
  - intros Hlo HR e -> He.
    by apply (eval_loop_index_error _ self s _ _ _ _ _ _ Hspos Hs Hla Hlo HR
                (steady_refl self) Hidx Hloop).
  - intros _ Hlo HR Hcols Hroom Hdec.
    assert (progress tokens self 0 self) as Hpr0.
    { unfold progress, splice. simpl. rewrite Nat.add_0_r, take_drop. split; [lia|done]. }
    destruct (eval_loop_progress _ _ _ _ _ _ _ _ _ Hspos Hs Hlo Hroom
                (steady_refl self) Hpr0 Hidx Hloop) as [_ Htot].
    apply Htot; [done|]. unfold scores_fit. by rewrite Hla.
Qed.

End EvalProperties.

(** C9, as stated, fails when [input_ids] is too short for the tokens: NumPy
    clips the slice, and a batch of one token assigned to an empty slice is
    broadcast to nothing.  With room for two tokens and batches of one, the
    call returns, the counter reads three, and the third token is stored
    nowhere.  With batches of three the same call raises instead. *)
Lemma tokens_beyond_capacity_are_dropped :
  let decode := λ (_ : Z) (_ : list Z), @None exn in
  let logits := λ (_ : Z) (_ : list Z) (k : nat), Z.of_nat k in
  let self := LlamaObj 0%Z 1%Z [0; 0]%Z (Array2 1 2 [0; 0]%Z) false 2 None in
  let self3 := LlamaObj 0%Z 3%Z [0; 0]%Z (Array2 1 2 [0; 0]%Z) false 2 None in
  let tokens := [7; 8; 9]%Z in
  let res := eval_with_progress Z decode logits self tokens in
  tokens ≠ [] ∧ (0 < n_batch self)%Z
  ∧ res.1.1 = Return tt
  ∧ n_tokens res.1.2 = 3%Z
  ∧ input_ids res.1.2 = [7; 8]%Z
  ∧ py_slice (input_ids res.1.2) (n_tokens self)
             (n_tokens self + Z.of_nat (length tokens)) ≠ tokens
  ∧ (eval_with_progress Z decode logits self3 tokens).1.1
    = Raise (Exn ValueError "could not broadcast input array").
Proof. by vm_compute. Qed.

(** Three tokens in batches of two, stored behind two tokens already there. *)
Lemma eval_takes_tokens_in_order_witness :
  let decode := λ (_ : Z) (_ : list Z), @None exn in
  let logits := λ (_ : Z) (_ : list Z) (k : nat), Z.of_nat k in
  let self := LlamaObj 2%Z 2%Z [5; 6; 0; 0; 0; 0]%Z (Array2 2 3 (replicate 6 0%Z)) false 3 None in
  let tokens := [7; 8; 9]%Z in
  let res := eval_with_progress Z decode logits self tokens in
  concat (map it_batch res.2) = tokens
  ∧ py_slice (input_ids res.1.2) (n_tokens self)
             (n_tokens self + Z.of_nat (length tokens)) = tokens
  ∧ n_tokens res.1.2 = (n_tokens self + Z.of_nat (length tokens))%Z.
Proof.
  intros decode logits self tokens res.
  apply (proj1 (eval_takes_tokens_in_order decode logits self tokens
                  ltac:(by vm_compute) ltac:(by vm_compute) ltac:(vm_compute; lia))
               res.1.1 res.1.2 res.2);
    by vm_compute.
Defined.

(** Three tokens in batches of two with a single row of [scores]: the
    positions run past the array, both iterations write row zero, and the row
    ends up with the logits of the second batch. *)
Lemma scores_row_within_bounds_witness :
  let decode := λ (_ : Z) (_ : list Z), @None exn in
  let logits := λ (n_past : Z) (_ : list Z) (k : nat), (10 * n_past + Z.of_nat k)%Z in
  let self := LlamaObj 0%Z 2%Z [0; 0; 0; 0]%Z (Array2 1 3 (replicate 3 0%Z)) false 3 None in
  let tokens := [7; 8; 9]%Z in
  let res := eval_with_progress Z decode logits self tokens in
  (res.1.1 = Return tt
   ∧ map it_row res.2 = [Some 0%Z; Some 0%Z]
   ∧ flat (scores res.1.2) = [20; 21; 22]%Z)
  ∧ Forall (λ it, ∀ idx, it_row it = Some idx →
              idx = Z.min (it_n_past it + Z.of_nat (length (it_batch it)) - 1)
                          (Z.of_nat (shape0 (scores self)) - 1)
              ∧ (idx ≤ Z.of_nat (shape0 (scores self)) - 1)%Z
              ∧ ((0 ≤ n_tokens self)%Z → (0 < shape0 (scores self))%nat →
                   (0 ≤ idx < Z.of_nat (shape0 (scores self)))%Z
                   ∧ np_index (shape0 (scores self)) idx = Return (Z.to_nat idx))) res.2
  ∧ (res.1.1 = Return tt →
       Forall (λ it, is_Some (it_row it)) res.2
       ∧ replay_rows logits (n_vocab self) (scores self) res.2
         = Return (scores res.1.2))
  ∧ ((0 ≤ n_tokens self)%Z → (0 < shape0 (scores self))%nat →
     ∀ e, res.1.1 = Raise e → exn_class e = IndexError →
          ∃ n_past batch, decode n_past batch = Some e)
  ∧ ((0 < n_batch self)%Z → (0 ≤ n_tokens self)%Z → (0 < shape0 (scores self))%nat →
     shape1 (scores self) = n_vocab self →
     (Z.to_nat (n_tokens self) + length tokens ≤ length (input_ids self))%nat →
     (∀ n_past batch, decode n_past batch = None) →
     res.1.1 = Return tt).
Proof.
  intros decode logits self tokens res. split; [by vm_compute|].
  apply (scores_row_within_bounds decode logits self tokens res.1.1 res.1.2 res.2);
    by vm_compute.
Defined.

(** * Further properties of the selector *)

Lemma first_candidate_ext E E' na cands :
  (∀ a, shared_args E' a = shared_args E a) →
  first_candidate E' na cands = first_candidate E na cands.
Proof.
  intros Hargs. induction cands as [|[arg n] rest IH]; [done|].
  simpl. rewrite IH. by destruct arg as [a|]; simpl; rewrite ?Hargs.
Qed.

Lemma select_nothing_to_try E cands st :
  first_candidate E (not_available_modules st) cands = None →
  select E cands st = (Return None, st, []).
Proof.
  induction cands as [|[arg n] rest IH]; [done|].
  simpl. case_bool_decide; [done|]. by destruct (should_import E arg).
Qed.

(** What a call returns is the first candidate that is eligible and not in
    the unavailable set as the call leaves it. *)
Lemma select_result_first E cands st o st' tr :
  select E cands st = (Return o, st', tr) →
  first_candidate E (not_available_modules st') cands = o.
Proof.
  revert st tr. induction cands as [|[arg n] rest IH]; intros st tr Hsel.
  { by simplify_eq/=. }
  pose proof (select_unavailable_mono _ _ _ _ _ _ Hsel) as Hmono.
  apply select_cons_inv in Hsel
    as [[Hskip Hrec] | (Hna & Hsi & [(_ & ? & _) |
         (Hc & [(Ht & ? & _) | [(e & tr' & _ & _ & Hrec & _) | (e & _ & _ & ? & _)]])])];
    [| done | | | done]; simpl.
  - apply IH in Hrec. case_bool_decide; [done|].
    destruct Hskip as [? | ->]; [set_solver|done].
  - simplify_eq. apply try_import_cases in Ht as [Heq _].
    rewrite bool_decide_eq_false_2 by (by rewrite Heq). by rewrite Hsi.
  - pose proof (select_unavailable_mono _ _ _ _ _ _ Hrec) as Hmono'.
    apply IH in Hrec. rewrite bool_decide_eq_true_2; [done|].
    apply Hmono'. simpl. set_solver.
Qed.

(** A call that returns a handle ends on the import of that variant; a call
    that returns [None] leaves the marker and the loaded modules alone. *)
Lemma select_return_shape E cands st o st' tr :
  select E cands st = (Return o, st', tr) →
  match o with
  | Some h => last (imports tr) = Some h ∧ h ∈ (cands.*2)
              ∧ (h ∉ not_available_modules st')
  | None => imported_module st' = imported_module st
            ∧ sys_modules st' = sys_modules st
  end.
Proof.
  revert st tr. induction cands as [|[arg n] rest IH]; intros st tr Hsel.
  { by simplify_eq/=. }
  apply select_cons_inv in Hsel
    as [[Hskip Hrec] | (Hna & Hsi & [(_ & ? & _) |
         (Hc & [(Ht & ? & ->) | [(e & tr' & _ & _ & Hrec & ->) | (e & _ & _ & ? & _)]])])];
    [| done | | | done].
  - apply IH in Hrec. destruct o; [|done]. set_solver.
  - simplify_eq. apply try_import_cases in Ht as [Heq _]. simpl.
    split_and!; [done|set_solver|by rewrite Heq].
  - apply IH in Hrec. destruct o as [h|]; [|done].
    destruct Hrec as (Hl & Hin & Hn). simpl in *.
    split_and!; [|set_solver|done]. by destruct (imports tr').
Qed.

(** X1.  A call that returns hands back the first candidate, in the order of
    the platform's list, that the configuration allows and that is not in the
    unavailable set as the call leaves it, and [None] exactly when there is no
    such candidate.  A handle it returns names the loaded variant, whose
    module is the last one imported and carries the patch. *)
Theorem call_returns_first_candidate E st o st' tr :
  llama_cpp_lib E st = (Return o, st', tr) →
  first_candidate E (not_available_modules st') (lib_names (platform_system E)) = o
  ∧ match o with
    | Some h =>
        imported_module st' = Some h
        ∧ (∃ l, sys_modules st' !! h = Some l ∧ patched l)
        ∧ last (imports tr) = Some h
        ∧ h ∈ (lib_names (platform_system E)).*2
    | None =>
        imported_module st' = imported_module st
        ∧ sys_modules st' = sys_modules st
    end.
Proof.
  unfold llama_cpp_lib. intros Hsel.
  split; [by apply (select_result_first _ _ _ _ _ _ Hsel)|].
  pose proof (select_return_shape _ _ _ _ _ _ Hsel) as Hshape.
  destruct o as [h|]; [|done].
  destruct (select_success _ _ _ _ _ _ Hsel) as [Hm Hl].
  destruct Hshape as (? & ? & _). by split_and!.
Qed.

(** On Linux with the cpu flag set and only the CUDA build installed, the
    call records the fallback and returns the CUDA build. *)
Lemma call_returns_first_candidate_witness :
  let E := Env "Linux" (flags ["cpu"]) (installed ["llama_cpp_cuda"]) in
  let res := llama_cpp_lib E init_state in
  first_candidate E (not_available_modules res.1.2) (lib_names (platform_system E))
    = Some "llama_cpp_cuda"
  ∧ imported_module res.1.2 = Some "llama_cpp_cuda"
  ∧ (∃ l, sys_modules res.1.2 !! "llama_cpp_cuda" = Some l ∧ patched l)
  ∧ last (imports res.2) = Some "llama_cpp_cuda"
  ∧ "llama_cpp_cuda" ∈ (lib_names (platform_system E)).*2.
Proof.
  intros E res.
  apply (call_returns_first_candidate E init_state (Some "llama_cpp_cuda") res.1.2 res.2).
  by vm_compute.
Defined.

(** X2.  A [None] is remembered: after a call that returned [None], a call
    on the same platform under the same flags imports nothing and returns
    [None] again, whatever has been installed in the meantime. *)
Theorem none_is_remembered E E' st st' tr :
  llama_cpp_lib E st = (Return None, st', tr) →
  platform_system E' = platform_system E →
  (∀ a, shared_args E' a = shared_args E a) →
  llama_cpp_lib E' st' = (Return None, st', []).
Proof.
  unfold llama_cpp_lib. intros Hsel Hsys Hargs. rewrite Hsys.
  apply select_nothing_to_try. rewrite (first_candidate_ext E E') by done.
  by apply (select_result_first _ _ _ _ _ _ Hsel).
Qed.

(** Nothing is installed at the first call; the fallback is installed before
    the second, which does not look for it. *)
Lemma none_is_remembered_witness :
  let E := Env "Darwin" (flags []) (installed []) in
  let E' := Env "Darwin" (flags []) (installed ["llama_cpp"]) in
  let st' := (llama_cpp_lib E init_state).1.2 in
  llama_cpp_lib E' st' = (Return None, st', []).
Proof.
  intros E E' st'.
  apply (none_is_remembered E E' init_state st' [ImportCall "llama_cpp"]);
    [by vm_compute|done|done].
Defined.

(** The [try] block touches no module but the one it imports, unloads
    nothing, and leaves a module that carries the patch as it is. *)
Lemma try_import_modules E n st r st' :
  try_import E n st = (r, st') →
  (∀ k, k ≠ n → sys_modules st' !! k = sys_modules st !! k)
  ∧ (∀ k, is_Some (sys_modules st !! k) → is_Some (sys_modules st' !! k))
  ∧ (∀ l, sys_modules st !! n = Some l → patched l → sys_modules st' !! n = Some l)
  ∧ (imported_module st' = imported_module st
     ∨ (imported_module st' = Some n ∧ is_Some (sys_modules st' !! n))).
Proof.
  unfold try_import, import_module.
  destruct (sys_modules st !! n) as [l0|] eqn:Hl0.
  - unfold patch_handle. cbn [sys_modules imported_module not_available_modules].
    rewrite Hl0. destruct (monkey_patch_llama_cpp_python l0) as [rp l'] eqn:Hp.
    destruct rp as [[]|e0]; intros [= <- <-];
      cbn [sys_modules imported_module]; (split_and!;
        [ intros k Hk; by rewrite lookup_insert_ne
        | intros k Hk; destruct (decide (k = n)) as [->|];
            [by rewrite lookup_insert_eq|by rewrite lookup_insert_ne]
        | intros l [= <-] Hpl; rewrite (patch_of_patched _ Hpl) in Hp;
            simplify_eq; by rewrite ?lookup_insert_eq
        | right; by rewrite lookup_insert_eq ]).
  - destruct (find_module E n) as [l0|e].
    + unfold patch_handle. cbn [sys_modules imported_module not_available_modules].
      rewrite lookup_insert_eq.
      destruct (monkey_patch_llama_cpp_python l0) as [rp l'] eqn:Hp.
      destruct rp as [[]|e0]; intros [= <- <-];
        cbn [sys_modules imported_module]; (split_and!;
          [ intros k Hk; by rewrite !lookup_insert_ne
          | intros k Hk; destruct (decide (k = n)) as [->|];
              [by rewrite lookup_insert_eq|by rewrite !lookup_insert_ne]
          | done
          | right; by rewrite lookup_insert_eq ]).
    + intros [= <- <-]. by split_and!; [| | |left].
Qed.

Lemma select_modules E cands st r st' tr :
  select E cands st = (r, st', tr) →
  (∀ k, sys_modules st' !! k ≠ sys_modules st !! k → last (imports tr) = Some k)
  ∧ (∀ k, is_Some (sys_modules st !! k) → is_Some (sys_modules st' !! k))
  ∧ (∀ k l, sys_modules st !! k = Some l → patched l → sys_modules st' !! k = Some l).
Proof.
  revert st r st' tr. induction cands as [|[arg n] rest IH]; intros st r st' tr Hsel.
  { by simplify_eq/=. }
  apply select_cons_inv in Hsel
    as [[_ Hrec] | (Hna & Hsi & [(_ & _ & -> & _) |
         (Hc & [(Ht & _ & ->) | [(e & tr' & _ & _ & Hrec & ->) | (e & Ht & _ & _ & ->)]])])].
  - eauto.
  - done.
  - destruct (try_import_modules _ _ _ _ _ Ht) as (Hne & Hmono & Hpat & _).
    split_and!; [|done|].
    + intros k Hk. simpl. destruct (decide (k = n)) as [->|]; [done|].
      by destruct Hk; apply Hne.
    + intros k l Hl Hpl. destruct (decide (k = n)) as [->|]; [eauto|].
      by rewrite Hne.
  - destruct (IH _ _ _ _ Hrec) as (Hch & Hmono & Hpat). simpl in *.
    split_and!; [|done|done].
    intros k Hk. apply Hch in Hk. by destruct (imports tr').
  - destruct (try_import_modules _ _ _ _ _ Ht) as (Hne & Hmono & Hpat & _).
    split_and!; [|done|].
    + intros k Hk. simpl. destruct (decide (k = n)) as [->|]; [done|].
      by destruct Hk; apply Hne.
    + intros k l Hl Hpl. destruct (decide (k = n)) as [->|]; [eauto|].
      by rewrite Hne.
Qed.

(** X3.  A call changes at most one module object, the one of the variant it
    imported last, and unloads none. *)
Theorem call_touches_one_module E st r st' tr :
  llama_cpp_lib E st = (r, st', tr) →
  (∀ k, sys_modules st' !! k ≠ sys_modules st !! k → last (imports tr) = Some k)
  ∧ (∀ k, is_Some (sys_modules st !! k) → is_Some (sys_modules st' !! k)).
Proof.
  unfold llama_cpp_lib. intros Hsel.
  destruct (select_modules _ _ _ _ _ _ Hsel) as (? & ? & _). done.
Qed.

Lemma call_touches_one_module_witness :
  let E := Env "Linux" (flags []) (installed ["llama_cpp"]) in
  let res := llama_cpp_lib E init_state in
  (∀ k, sys_modules res.1.2 !! k ≠ sys_modules init_state !! k →
        last (imports res.2) = Some k)
  ∧ (∀ k, is_Some (sys_modules init_state !! k) → is_Some (sys_modules res.1.2 !! k)).
Proof.
  intros E res.
  apply (call_touches_one_module E init_state res.1.1 res.1.2 res.2). by vm_compute.
Defined.

(** X4.  A module that carries the patch is final: no later call of the
    process changes it, whatever the configurations and the outcomes. *)
Theorem patched_module_is_final (Es : list env) (st : state) (k : string) (l : lib_obj) :
  sys_modules st !! k = Some l → patched l →
  sys_modules (run_calls Es st).2 !! k = Some l.
Proof.
  revert st. induction Es as [|E Es IH]; intros st Hl Hp; [done|].
  rewrite run_calls_cons. simpl. apply IH; [|done].
  destruct (llama_cpp_lib E st) as [[r st'] tr] eqn:Hc. simpl.
  unfold llama_cpp_lib in Hc.
  destruct (select_modules _ _ _ _ _ _ Hc) as (_ & _ & Hpat). eauto.
Qed.

Lemma patched_module_is_final_witness :
  let inst := installed ["llama_cpp"; "llama_cpp_cuda"] in
  let st := (llama_cpp_lib (Env "Linux" (flags ["cpu"]) inst) init_state).1.2 in
  let l := (monkey_patch_llama_cpp_python stock_lib).2 in
  sys_modules
    (run_calls [Env "Linux" (flags []) inst; Env "Linux" (flags ["cpu"]) inst] st).2
    !! "llama_cpp" = Some l.
Proof.
  intros inst st l.
  apply (patched_module_is_final
           [Env "Linux" (flags []) inst; Env "Linux" (flags ["cpu"]) inst]
           st "llama_cpp" l).
  - by vm_compute.
  - exists (default ∅ (Llama l)). by vm_compute.
Defined.

(** The loaded variant stays consistent through a call. *)
Lemma select_loaded_ok E cands st r st' tr :
  select E cands st = (r, st', tr) → loaded_ok st → loaded_ok st'.
Proof.
  revert st r st' tr. induction cands as [|[arg n] rest IH]; intros st r st' tr Hsel Hok.
  { by simplify_eq/=. }
  apply select_cons_inv in Hsel
    as [[_ Hrec] | (Hna & Hsi & [(_ & _ & -> & _) |
         (Hc & [(Ht & _) | [(e & tr' & [Hnone _] & _ & Hrec & _) | (e & Ht & _)]])])].
  - eauto.
  - done.
  - destruct (try_import_modules _ _ _ _ _ Ht) as (_ & Hmono & _ & Hm).
    apply try_import_cases in Ht as [Heq _].
    intros m Hmm. rewrite Heq. destruct Hm as [Hm | [Hm Hs]].
    + rewrite Hm in Hmm. destruct (Hok m Hmm). eauto.
    + by simplify_eq.
  - apply (IH _ _ _ _ Hrec). intros m Hm. simpl in *.
    destruct (Hok m Hm) as [Hn Hs]. split; [|done].
    assert (m ≠ n) by (intros ->; rewrite Hnone in Hs; by destruct Hs).
    set_solver.
  - destruct (try_import_modules _ _ _ _ _ Ht) as (_ & Hmono & _ & Hm).
    apply try_import_cases in Ht as [Heq _].
    intros m Hmm. rewrite Heq. destruct Hm as [Hm | [Hm Hs]].
    + rewrite Hm in Hmm. destruct (Hok m Hmm). eauto.
    + by simplify_eq.
Qed.

Lemma run_calls_loaded_ok Es st : loaded_ok st → loaded_ok (run_calls Es st).2.
Proof.
  revert st. induction Es as [|E Es IH]; intros st Hok; [done|].
  rewrite run_calls_cons. simpl. apply IH.
  destruct (llama_cpp_lib E st) as [[r st'] tr] eqn:Hc. simpl.
  unfold llama_cpp_lib in Hc. eauto using select_loaded_ok.
Qed.

(** X5.  In every state a process reaches, the loaded variant is not in the
    unavailable set and its module is loaded: the marker and the set never
    contradict each other. *)
Theorem loaded_variant_stays_available (st : state) (m : string) :
  reachable st →
  imported_module st = Some m →
  (m ∉ not_available_modules st) ∧ is_Some (sys_modules st !! m).
Proof.
  intros [Es ->]. apply run_calls_loaded_ok. by intros m'.
Qed.

Lemma loaded_variant_stays_available_witness :
  let E := Env "Linux" (flags []) (installed ["llama_cpp"]) in
  let st := (run_calls [E; E] init_state).2 in
  ("llama_cpp" ∉ not_available_modules st) ∧ is_Some (sys_modules st !! "llama_cpp").
Proof.
  intros E st. apply (loaded_variant_stays_available st "llama_cpp").
  - by exists [E; E].
  - by vm_compute.
Defined.

(** * Further properties of the patch step *)

(** X6.  The patch step fails only with an [AttributeError], for a module
    without a class [Llama] or a class without [generate].  A failed
    application sets no marker, on the class or on the formatter, and leaves
    the chat format module alone; without [Llama] the module is unchanged,
    without [generate] the class has lost its own [eval] to the batched one
    all the same.  Applying the step again fails in the same way and changes
    nothing more. *)
Theorem monkey_patch_failure (lib lib1 : lib_obj) (e : exn) :
  monkey_patch_llama_cpp_python lib = (Raise e, lib1) →
  exn_class e = AttributeError
  ∧ ¬ patched lib1
  ∧ llama_chat_format lib1 = llama_chat_format lib
  ∧ match Llama lib with
    | None => lib1 = lib
    | Some cls =>
        cls !! "generate" = None
        ∧ Llama lib1 = Some (<["eval" := VFun EvalWithProgress]> cls)
    end
  ∧ monkey_patch_llama_cpp_python lib1 = (Raise e, lib1).
Proof.
  unfold monkey_patch_llama_cpp_python, patched.
  destruct (Llama lib) as [cls|] eqn:Hcls.
  - destruct (truthy (getattr_default cls "_is_patched" (VBool false))) eqn:Hp; [done|].
    rewrite lookup_insert_ne by done.
    destruct (cls !! "generate") as [g|] eqn:Hg; [done|].
    intros [= <- <-]. cbn [Llama llama_chat_format].
    assert (truthy (getattr_default (<["eval" := VFun EvalWithProgress]> cls)
                      "_is_patched" (VBool false)) = false) as Hp'.
    { unfold getattr_default in *. by rewrite lookup_insert_ne. }
    split_and!; [done| |done|done|done|].
    + intros (cls' & [= <-] & Ht). congruence.
    + rewrite Hp', insert_insert_eq.
      rewrite lookup_insert_ne by done. by rewrite Hg.
  - intros [= <- <-]. rewrite ?Hcls. split_and!; [done| |done|done|by rewrite ?Hcls].
    intros (cls' & ? & _). congruence.
Qed.

(** A class without [generate]. *)
Lemma monkey_patch_failure_witness :
  let cls : gmap string pyval := {[ "eval" := VFun (Native "Llama.eval") ]} in
  let lib := Lib (Some cls) None in
  let e := Exn AttributeError "type object 'Llama' has no attribute 'generate'" in
  let lib1 := Lib (Some (<["eval" := VFun EvalWithProgress]> cls)) None in
  exn_class e = AttributeError
  ∧ ¬ patched lib1
  ∧ llama_chat_format lib1 = llama_chat_format lib
  ∧ match Llama lib with
    | None => lib1 = lib
    | Some cls =>
        cls !! "generate" = None
        ∧ Llama lib1 = Some (<["eval" := VFun EvalWithProgress]> cls)
    end
  ∧ monkey_patch_llama_cpp_python lib1 = (Raise e, lib1).
Proof.
  intros cls lib e lib1. apply (monkey_patch_failure lib lib1 e). by vm_compute.
Defined.

(** X7.  A patch that is applied writes four attributes of [Llama] ([eval],
    [original_generate], [generate], [_is_patched]) and two of
    [Jinja2ChatFormatter] ([__init__], [_is_patched]); every other attribute
    of either class keeps its value.  A formatter that carries the marker
    already is not written at all, and a module without the formatter is
    patched all the same. *)
Theorem monkey_patch_frame (lib lib1 : lib_obj) (cls : gmap string pyval) :
  monkey_patch_llama_cpp_python lib = (Return tt, lib1) →
  Llama lib = Some cls →
  truthy (getattr_default cls "_is_patched" (VBool false)) = false →
  (∃ cls1, Llama lib1 = Some cls1
     ∧ ∀ k, k ∉ ["eval"; "original_generate"; "generate"; "_is_patched"] →
            cls1 !! k = cls !! k)
  ∧ match llama_chat_format lib with
    | None => llama_chat_format lib1 = None
    | Some m =>
        match Jinja2ChatFormatter m with
        | None => llama_chat_format lib1 = Some m
        | Some fmt =>
            ∃ fmt1, llama_chat_format lib1 = Some (ChatFormat (Some fmt1))
              ∧ truthy (getattr_default fmt1 "_is_patched" (VBool false)) = true
              ∧ (∀ k, k ∉ ["__init__"; "_is_patched"] → fmt1 !! k = fmt !! k)
              ∧ if truthy (getattr_default fmt "_is_patched" (VBool false))
                then fmt1 = fmt
                else fmt1 !! "__init__" = Some (VFun PatchedInit)
        end
    end.
Proof.
  intros Hp Hcls Hnp. unfold monkey_patch_llama_cpp_python in Hp.
  rewrite Hcls, Hnp in Hp. rewrite lookup_insert_ne in Hp by done.
  destruct (cls !! "generate") as [g|] eqn:Hg; [|done].
  injection Hp as <-. cbn [Llama llama_chat_format]. split.
  - eexists. split; [done|]. intros k Hk.
    rewrite !lookup_insert_ne; [done|set_solver..].
  - unfold patch_formatter.
    destruct (llama_chat_format lib) as [[[fmt|]]|]; [|done|done].
    cbn [Jinja2ChatFormatter].
    destruct (truthy (getattr_default fmt "_is_patched" (VBool false))) eqn:Hf; simpl.
    + exists fmt. by split_and!.
    + eexists. split; [done|]. split_and!.
      * unfold getattr_default. by rewrite lookup_insert_eq.
      * intros k Hk. rewrite !lookup_insert_ne; [done|set_solver..].
      * rewrite lookup_insert_ne by done. by rewrite lookup_insert_eq.
Qed.

Lemma monkey_patch_frame_witness :
  let cls : gmap string pyval := <["tokenize" := VFun (Native "Llama.tokenize")]> stock_llama in
  let lib := Lib (Some cls) (llama_chat_format stock_lib) in
  let lib1 := (monkey_patch_llama_cpp_python lib).2 in
  (∃ cls1, Llama lib1 = Some cls1
     ∧ ∀ k, k ∉ ["eval"; "original_generate"; "generate"; "_is_patched"] →
            cls1 !! k = cls !! k)
  ∧ match llama_chat_format lib with
    | None => llama_chat_format lib1 = None
    | Some m =>
        match Jinja2ChatFormatter m with
        | None => llama_chat_format lib1 = Some m
        | Some fmt =>
            ∃ fmt1, llama_chat_format lib1 = Some (ChatFormat (Some fmt1))
              ∧ truthy (getattr_default fmt1 "_is_patched" (VBool false)) = true
              ∧ (∀ k, k ∉ ["__init__"; "_is_patched"] → fmt1 !! k = fmt !! k)
              ∧ if truthy (getattr_default fmt "_is_patched" (VBool false))
                then fmt1 = fmt
                else fmt1 !! "__init__" = Some (VFun PatchedInit)
        end
    end.
Proof.
  intros cls lib lib1. apply (monkey_patch_frame lib lib1 cls); by vm_compute.
Defined.

(** * Further properties of the evaluation loop *)

Lemma concat_chunks {A} (l : list A) (s m : nat) :
  ∀ j, take (j * s) l ++ concat (map (chunk s l) (seq j m)) = take ((j + m) * s) l.
Proof.
  induction m as [|m IH]; intros j.
  { simpl. by rewrite app_nil_r, Nat.add_0_r. }
  cbn [seq map concat]. rewrite (assoc_L (++)), <- take_chunk_step, IH.
  f_equal. lia.
Qed.

Lemma slice_bound_le (len : nat) (x : Z) : (slice_bound len x ≤ len)%nat.
Proof. unfold slice_bound. destruct (Z.ltb_spec x 0); lia. Qed.

Lemma np_assign_length {A} (l l' : list A) (start m : nat) (vals : list A) :
  (start + m ≤ length l)%nat →
  np_assign l start m vals = Return l' → length l' = length l.
Proof.
  intros Hfit. unfold np_assign. case_bool_decide as Hlen.
  - intros [= <-]. rewrite !length_app, length_take, length_drop. lia.
  - destruct vals as [|v [|]]; [done| |done]. intros [= <-].
    rewrite !length_app, length_take, length_replicate, length_drop. lia.
Qed.

(** An assignment to a slice never changes the size of the array. *)
Lemma np_set_slice_length {A} (arr arr' : list A) (a b : Z) (vals : list A) :
  np_set_slice arr a b vals = Return arr' → length arr' = length arr.
Proof.
  unfold np_set_slice. apply np_assign_length.
  pose proof (slice_bound_le (length arr) a). pose proof (slice_bound_le (length arr) b).
  lia.
Qed.

Lemma np_set_rows_flat {A} (arr arr' : array2 A) (a b : Z) (vals : list A) :
  length (flat arr) = (shape0 arr * shape1 arr)%nat →
  np_set_rows arr a b vals = Return arr' →
  length (flat arr') = (shape0 arr' * shape1 arr')%nat.
Proof.
  intros Hwf. unfold np_set_rows.
  destruct (np_assign _ _ _ _) as [f|] eqn:Hf; [|done]. intros [= <-]. simpl.
  rewrite <- Hwf. apply (np_assign_length _ _ _ _ _) in Hf; [done|].
  pose proof (slice_bound_le (shape0 arr) a). pose proof (slice_bound_le (shape0 arr) b).
  rewrite Hwf. nia.
Qed.

Lemma np_index_lt (n : nat) (i : Z) (r : nat) :
  np_index n i = Return r → (r < n)%nat.
Proof.
  unfold np_index.
  destruct (Z.ltb_spec i (- Z.of_nat n)); [done|].
  destruct (Z.leb_spec (Z.of_nat n) i); [done|]. simpl.
  intros [= <-]. destruct (Z.ltb_spec i 0); lia.
Qed.

Lemma np_set_row_flat {A} (arr arr' : array2 A) (i : Z) (vals : list A) :
  length (flat arr) = (shape0 arr * shape1 arr)%nat →
  np_set_row arr i vals = Return arr' →
  length (flat arr') = (shape0 arr' * shape1 arr')%nat.
Proof.
  intros Hwf. unfold np_set_row.
  destruct (np_index _ _) as [r|] eqn:Hr; [|done]. apply np_index_lt in Hr.
  destruct (np_assign _ _ _ _) as [f|] eqn:Hf; [|done]. intros [= <-]. simpl.
  rewrite <- Hwf. apply (np_assign_length _ _ _ _ _) in Hf; [done|].
  rewrite Hwf. nia.
Qed.

(** A row that was assigned values of its width reads back as them. *)
Lemma np_set_row_get {A} (arr arr' : array2 A) (i : Z) (vals : list A) (r : nat) :
  length (flat arr) = (shape0 arr * shape1 arr)%nat →
  length vals = shape1 arr →
  np_index (shape0 arr) i = Return r →
  np_set_row arr i vals = Return arr' →
  get_row arr' r = vals.
Proof.
  intros Hwf Hlen Hr. unfold np_set_row. rewrite Hr.
  pose proof (np_index_lt _ _ _ Hr) as Hlt.
  rewrite <- Hlen at 2. rewrite np_assign_fits. intros [= <-].
  unfold get_row. simpl.
  rewrite drop_app_length' by (rewrite length_take; nia).
  rewrite <- Hlen. by rewrite take_app_length.
Qed.

Section EvalFurther.

Context {F : Type}.
Variable ctx_decode : Z → list Z → option exn.
Variable ctx_get_logits : Z → list Z → nat → F.

Local Abbreviation step := (eval_step F ctx_decode ctx_get_logits).
Local Abbreviation loop := (eval_loop F ctx_decode ctx_get_logits).
Local Abbreviation eval := (eval_with_progress F ctx_decode ctx_get_logits).

(** One iteration keeps the size of both arrays, whatever its outcome. *)
Lemma eval_step_sizes tokens i (self : llama F) r self' its :
  step tokens i self = (r, self', its) →
  length (input_ids self') = length (input_ids self)
  ∧ (length (flat (scores self)) = (shape0 (scores self) * shape1 (scores self))%nat →
     length (flat (scores self')) = (shape0 (scores self') * shape1 (scores self'))%nat).
Proof.
  unfold eval_step.
  destruct (ctx_decode _ _); [by intros [= <- <- <-]|].
  destruct (np_set_slice _ _ _ _) as [ids|] eqn:Hids; [|by intros [= <- <- <-]].
  apply np_set_slice_length in Hids.
  destruct (logits_all self).
  - destruct (np_set_rows _ _ _ _) as [sc|] eqn:Hsc; intros [= <- <- <-]; [|done].
    simpl. split; [done|]. intros Hwf. by apply (np_set_rows_flat _ _ _ _ _ Hwf Hsc).
  - destruct (np_set_row _ _ _) as [sc|] eqn:Hsc; intros [= <- <- <-]; [|done].
    simpl. split; [done|]. intros Hwf. by apply (np_set_row_flat _ _ _ _ Hwf Hsc).
Qed.

Lemma eval_loop_sizes tokens idxs :
  ∀ (self0 self : llama F) r self' its,
  steady self0 self →
  loop tokens idxs self = (r, self', its) →
  steady self0 self'
  ∧ length (input_ids self') = length (input_ids self)
  ∧ (length (flat (scores self)) = (shape0 (scores self) * shape1 (scores self))%nat →
     length (flat (scores self')) = (shape0 (scores self') * shape1 (scores self'))%nat).
Proof.
  induction idxs as [|i rest IH]; intros self0 self r self' its Hst Hloop.
  { simpl in Hloop. by simplify_eq. }
  simpl in Hloop.
  destruct (step tokens i self) as [[r1 self1] its1] eqn:Hstep.
  pose proof (eval_step_steady _ _ _ _ _ _ _ _ _ Hst Hstep) as (Hst1 & _).
  destruct (eval_step_sizes _ _ _ _ _ _ Hstep) as [Hlen Hwf].
  destruct r1 as [[]|e]; [|by simplify_eq].
  destruct (loop tokens rest self1) as [[r2 self2] its2] eqn:Hrec.
  destruct (IH _ _ _ _ _ Hst1 Hrec) as (Hst2 & Hlen2 & Hwf2). simplify_eq.
  split_and!; [done|congruence|auto].
Qed.

(** X8.  A call never resizes an array and never touches the settings of the
    instance: whatever it does and however it ends, [input_ids] keeps its
    length, [scores] its shape (and its number of cells, when that matched
    the shape), [n_batch], [logits_all] and [n_vocab] their values, and the
    token counter does not go down. *)
Theorem eval_keeps_sizes (self : llama F) (tokens : list Z) r self' its :
  eval self tokens = (r, self', its) →
  length (input_ids self') = length (input_ids self)
  ∧ shape0 (scores self') = shape0 (scores self)
  ∧ shape1 (scores self') = shape1 (scores self)
  ∧ (length (flat (scores self)) = (shape0 (scores self) * shape1 (scores self))%nat →
     length (flat (scores self')) = length (flat (scores self)))
  ∧ n_batch self' = n_batch self
  ∧ logits_all self' = logits_all self
  ∧ n_vocab self' = n_vocab self
  ∧ (n_tokens self ≤ n_tokens self')%Z.
Proof.
  unfold eval_with_progress.
  destruct (py_range _ _) as [idxs|e]; [|intros [= <- <- <-]; by split_and!; [..|lia]].
  intros Hloop.
  destruct (eval_loop_sizes _ _ _ _ _ _ _ (steady_refl self) Hloop)
    as ((? & ? & ? & ? & Hs0 & Hs1) & ? & Hwf).
  split_and!; try done. intros Hflat. rewrite (Hwf Hflat), Hs0, Hs1. done.
Qed.

(** What an iteration that returns has done. *)
Lemma eval_step_return tokens i (self : llama F) self' its :
  step tokens i self = (Return tt, self', its) →
  let batch := py_slice tokens i (Z.min (Z.of_nat (length tokens)) (i + n_batch self)) in
  let n := (n_tokens self + Z.of_nat (length batch))%Z in
  n_tokens self' = n
  ∧ last_updated_index self' = Some (row_after self n)
  ∧ its = [Iteration (n_tokens self) batch
             (if logits_all self then None else Some (row_after self n))]
  ∧ (logits_all self = false →
     length (flat (scores self)) = (shape0 (scores self) * shape1 (scores self))%nat →
     shape1 (scores self) = n_vocab self →
     ∃ r, np_index (shape0 (scores self)) (row_after self n) = Return r
          ∧ get_row (scores self') r = as_array F ctx_get_logits (n_tokens self) batch (n_vocab self)).
Proof.
  intros Hstep batch n. revert Hstep. unfold eval_step, row_after. fold batch.
  destruct (ctx_decode _ _); [done|].
  destruct (np_set_slice _ _ _ _) as [ids|]; [|done].
  destruct (logits_all self).
  - destruct (np_set_rows _ _ _ _) as [sc|]; [|done]. intros [= <- <-].
    by split_and!.
  - replace (n_tokens self + Z.of_nat (length batch) - 1)%Z with (n - 1)%Z by done.
    destruct (np_set_row _ _ _) as [sc|] eqn:Hsc; [|done]. intros [= <- <-].
    split_and!; [done|done|done|]. intros _ Hwf Hcols. simpl.
    rewrite Nat.mul_1_l in Hsc.
    destruct (np_index (shape0 (scores self))
                (Z.min (n - 1) (Z.of_nat (shape0 (scores self)) - 1))) as [r|] eqn:Hr.
    + exists r. split; [done|].
      apply (np_set_row_get _ _ _ _ _ Hwf) with (2 := Hr) (3 := Hsc).
      unfold as_array. rewrite length_map, length_seq. lia.
    + unfold np_set_row in Hsc. by rewrite Hr in Hsc.
Qed.

(** The batches of a loop that returns, and where each was placed. *)
Lemma eval_loop_batches tokens (self0 : llama F) (s m : nat) :
  ∀ j self self' its,
  (0 < s)%nat → n_batch self0 = Z.of_nat s →
  steady self0 self →
  n_tokens self = (n_tokens self0 + Z.of_nat (length (take (j * s) tokens)))%Z →
  (∀ k, (j ≤ k < j + m)%nat → (k * s < length tokens)%nat) →
  loop tokens (map (λ k : nat, (Z.of_nat k * Z.of_nat s)%Z) (seq j m)) self
    = (Return tt, self', its) →
  map it_batch its = map (chunk s tokens) (seq j m)
  ∧ map it_n_past its = map (λ k : nat, (n_tokens self0 + Z.of_nat (k * s))%Z) (seq j m)
  ∧ n_tokens self'
    = (n_tokens self0 + Z.of_nat (length (take ((j + m) * s) tokens)))%Z.
Proof.
  induction m as [|m IH]; intros j self self' its Hs Hnb Hst Hcount Hidx Hloop.
  { simpl in Hloop. simplify_eq. by rewrite Nat.add_0_r. }
  simpl in Hloop.
  destruct (step tokens _ self) as [[r1 self1] its1] eqn:Hstep.
  pose proof (eval_step_steady _ _ _ _ _ _ _ _ _ Hst Hstep) as (Hst1 & _).
  destruct r1 as [[]|e]; [|done].
  apply eval_step_return in Hstep as (Hn1 & _ & -> & _).
  destruct Hst as (_ & Hb & _).
  pose proof (Hidx j ltac:(lia)) as Hj.
  rewrite Hb, Hnb, batch_is_chunk in Hn1, Hloop by (try done; lia).
  destruct (loop tokens _ self1) as [[r2 self2] its2] eqn:Hrec.
  assert (r2 = Return tt) as -> by (by simplify_eq).
  apply (IH (S j)) in Hrec as (Hb2 & Hp2 & Hn2);
    [|done|done|done| |intros k Hk; apply Hidx; lia].
  - simplify_eq. cbn [map app seq it_batch it_n_past].
    rewrite Hb2, Hp2, Hn2, Hcount, length_take. split_and!; [done| |].
    + do 3 f_equal. lia.
    + do 4 f_equal. lia.
  - rewrite Hn1, Hcount, take_chunk_step, length_app. lia.
Qed.

(** X9.  A call that returns, for a positive batch size, has run one
    iteration per started batch, [ceil(len(tokens) / n_batch)] in all: each
    took the next [n_batch] tokens (the last one what is left, at least one)
    and placed them right behind those before.  The batches make up the
    input and the counter has gone up by [len(tokens)], whether or not the
    arrays had room for what was written. *)
Theorem eval_batches (self : llama F) (tokens : list Z) self' its :
  (0 < n_batch self)%Z →
  eval self tokens = (Return tt, self', its) →
  let s := Z.to_nat (n_batch self) in
  let cnt := Z.to_nat ((Z.of_nat (length tokens) + n_batch self - 1) / n_batch self) in
  map it_batch its = map (chunk s tokens) (seq 0 cnt)
  ∧ map it_n_past its = map (λ k : nat, (n_tokens self + Z.of_nat (k * s))%Z) (seq 0 cnt)
  ∧ length its = cnt
  ∧ Forall (λ it, (1 ≤ length (it_batch it) ≤ s)%nat) its
  ∧ (∀ k, (S k < cnt)%nat → length (chunk s tokens k) = s)
  ∧ concat (map it_batch its) = tokens
  ∧ n_tokens self' = (n_tokens self + Z.of_nat (length tokens))%Z.
Proof.
  intros Hnb Heval s cnt.
  assert (n_batch self = Z.of_nat s) as Hs by (unfold s; lia).
  assert (0 < s)%nat as Hspos by lia.
  assert (∀ k, (k < cnt)%nat ↔ (k * s < length tokens)%nat) as Hcnt.
  { intros k. unfold cnt. rewrite Hs. by apply range_count. }
  assert (take (cnt * s) tokens = tokens) as Hall.
  { apply take_ge. destruct (Nat.le_gt_cases (length tokens) (cnt * s)); [done|].
    assert (cnt < cnt)%nat; [|lia]. by apply Hcnt. }
  unfold eval_with_progress in Heval.
  rewrite py_range_positive in Heval by done. fold cnt in Heval. rewrite Hs in Heval.
  apply (eval_loop_batches _ self s) in Heval as (Hb & Hp & Hn);
    [|done|done|apply steady_refl|simpl; lia|intros k Hk; apply Hcnt; lia].
  simpl in Hn. rewrite Hall in Hn.
  assert (length its = cnt) as Hlen.
  { apply (f_equal length) in Hb. by rewrite !length_map, length_seq in Hb. }
  split_and!; [done|done|done| | | |done].
  - apply Forall_forall. intros it Hit.
    assert (it_batch it ∈ map it_batch its) as Hin by (by apply list_elem_of_fmap_2).
    rewrite Hb in Hin. apply list_elem_of_fmap in Hin as (k & -> & Hk).
    apply elem_of_seq in Hk. rewrite chunk_length.
    assert (k * s < length tokens)%nat by (apply Hcnt; lia). lia.
  - intros k Hk. rewrite chunk_length.
    assert (S k * s < length tokens)%nat by (by apply Hcnt). lia.
  - pose proof (concat_chunks tokens s cnt 0) as Hc. simpl in Hc.
    rewrite Hall in Hc. by rewrite Hb.
Qed.

(** X10.  A call with nothing to do.  With a batch size of zero the call
    raises [ValueError] before it decodes anything, also for an empty input;
    with a negative batch size it returns at once and evaluates no token at
    all; with no tokens and a batch size other than zero it returns at once.
    In all three cases the instance is untouched. *)
Theorem eval_nothing_to_do (self : llama F) (tokens : list Z) :
  (n_batch self = 0%Z →
     eval self tokens
     = (Raise (Exn ValueError "range() arg 3 must not be zero"), self, []))
  ∧ ((n_batch self < 0)%Z → eval self tokens = (Return tt, self, []))
  ∧ (tokens = [] → n_batch self ≠ 0%Z → eval self tokens = (Return tt, self, [])).
Proof.
  unfold eval_with_progress, py_range. split_and!.
  - by intros ->.
  - intros Hneg. destruct (Z.eqb_spec (n_batch self) 0); [lia|].
    by destruct (Z.ltb_spec (n_batch self) 0); [|lia].
  - intros -> Hne. destruct (Z.eqb_spec (n_batch self) 0); [done|].
    destruct (Z.ltb_spec (n_batch self) 0); [done|]. simpl.
    by rewrite Z.div_small by lia.
Qed.




(** After a loop that ran at least once and returned. *)
Lemma eval_loop_last tokens idxs :
  ∀ (self self' : llama F) its,
  idxs ≠ [] →
  loop tokens idxs self = (Return tt, self', its) →
  ∃ it, last its = Some it
    ∧ n_tokens self' = (it_n_past it + Z.of_nat (length (it_batch it)))%Z
    ∧ last_updated_index self' = Some (row_after self (n_tokens self'))
    ∧ (logits_all self = false →
       length (flat (scores self)) = (shape0 (scores self) * shape1 (scores self))%nat →
       shape1 (scores self) = n_vocab self →
       ∃ r, np_index (shape0 (scores self)) (row_after self (n_tokens self')) = Return r
            ∧ get_row (scores self') r
              = as_array F ctx_get_logits (it_n_past it) (it_batch it) (n_vocab self)).
Proof.
  induction idxs as [|i rest IH]; intros self self' its Hne Hloop; [done|].
  simpl in Hloop.
  destruct (step tokens i self) as [[r1 self1] its1] eqn:Hstep.
  destruct r1 as [[]|e]; [|done].
  pose proof (eval_step_steady _ _ _ _ _ _ _ _ _ (steady_refl self) Hstep)
    as ((_ & _ & Hl & Hv & Hs0 & Hs1) & _).
  destruct (eval_step_sizes _ _ _ _ _ _ Hstep) as [_ Hwf1].
  apply eval_step_return in Hstep as (Hn1 & Hlui & -> & Hrow).
  destruct (loop tokens rest self1) as [[r2 self2] its2] eqn:Hrec.
  assert (r2 = Return tt) as -> by (by simplify_eq).
  destruct rest as [|i' rest'].
  - simpl in Hrec. simplify_eq. eexists. split; [done|]. simpl.
    split_and!; [done|by rewrite Hn1|]. intros Hla Hwf Hcols.
    rewrite Hn1. by apply Hrow.
  - apply IH in Hrec as (it & Hlast & Hn2 & Hlui2 & Hrow2); [|done].
    simplify_eq. exists it. split; [by rewrite last_app, Hlast|].
    assert (∀ n, row_after self1 n = row_after self n) as Hra.
    { intros n. unfold row_after. by rewrite Hl, Hs0. }
    rewrite Hra in Hlui2, Hrow2. split_and!; [done|done|].
    intros Hla Hwf Hcols. rewrite Hl, Hs0, Hs1, Hv in Hrow2.
    apply Hrow2; [done| |done]. rewrite <- Hs0, <- Hs1. by apply Hwf1.
Qed.

(** X12.  After a call that returned, for a non-empty input,
    [last_updated_index] names the row of the last token: [p + len(tokens) - 1]
    with [logits_all], that position capped at the last row without.
    Without [logits_all], and with a [scores] array of [n_vocab] columns,
    [scores[last_updated_index]] holds the logits the context produced for
    the last batch. *)
Theorem eval_last_row (self : llama F) (tokens : list Z) self' its :
  (0 < n_batch self)%Z →
  tokens ≠ [] →
  eval self tokens = (Return tt, self', its) →
  last_updated_index self'
    = Some (row_after self (n_tokens self + Z.of_nat (length tokens)))
  ∧ (logits_all self = false →
     length (flat (scores self)) = (shape0 (scores self) * shape1 (scores self))%nat →
     shape1 (scores self) = n_vocab self →
     ∃ it r,
       last its = Some it
       ∧ (it_n_past it + Z.of_nat (length (it_batch it))
          = n_tokens self + Z.of_nat (length tokens))%Z
       ∧ np_index (shape0 (scores self))
           (row_after self (n_tokens self + Z.of_nat (length tokens))) = Return r
       ∧ get_row (scores self') r
         = as_array F ctx_get_logits (it_n_past it) (it_batch it) (n_vocab self)).
Proof.
  intros Hnb Hne Heval.
  set (s := Z.to_nat (n_batch self)).
  assert (n_batch self = Z.of_nat s) as Hs by (unfold s; lia).
  assert (0 < s)%nat as Hspos by lia.
  set (cnt := Z.to_nat ((Z.of_nat (length tokens) + Z.of_nat s - 1) / Z.of_nat s)).
  assert (∀ k, (k < cnt)%nat ↔ (k * s < length tokens)%nat) as Hcnt.
  { intros k. by apply range_count. }
  assert (take (cnt * s) tokens = tokens) as Hall.
  { apply take_ge. destruct (Nat.le_gt_cases (length tokens) (cnt * s)); [done|].
    assert (cnt < cnt)%nat; [|lia]. by apply Hcnt. }
  assert (0 < cnt)%nat as Hpos.
  { apply Hcnt. destruct tokens; [done|simpl; lia]. }
  unfold eval_with_progress in Heval.
  rewrite Hs, py_range_positive in Heval by lia. fold cnt in Heval.
  pose proof Heval as Hloop.
  apply (eval_loop_batches _ self s) in Heval as (_ & _ & Hn);
    [|done|done|apply steady_refl|simpl; lia|intros k Hk; apply Hcnt; lia].
  simpl in Hn. rewrite Hall in Hn.
  apply eval_loop_last in Hloop as (it & Hlast & Hn' & Hlui & Hrow).
  2:{ destruct cnt; [lia|done]. }
  rewrite Hn in Hlui, Hrow. split; [done|].
  intros Hla Hwf Hcols. destruct (Hrow Hla Hwf Hcols) as (r & Hr & Hget).
  exists it, r. split_and!; [done|lia|done|done].
Qed.

End EvalFurther.

(** A call that raises halfway: three tokens in one batch, two cells. *)
Lemma eval_keeps_sizes_witness :
  let decode := λ (_ : Z) (_ : list Z), @None exn in
  let logits := λ (_ : Z) (_ : list Z) (k : nat), Z.of_nat k in
  let self := LlamaObj 0%Z 3%Z [0; 0]%Z (Array2 1 2 [0; 0]%Z) false 2 None in
  let res := eval_with_progress Z decode logits self [7; 8; 9]%Z in
  res.1.1 = Raise (Exn ValueError "could not broadcast input array")
  ∧ length (input_ids res.1.2) = length (input_ids self)
  ∧ shape0 (scores res.1.2) = shape0 (scores self)
  ∧ shape1 (scores res.1.2) = shape1 (scores self)
  ∧ (length (flat (scores self)) = (shape0 (scores self) * shape1 (scores self))%nat →
     length (flat (scores res.1.2)) = length (flat (scores self)))
  ∧ n_batch res.1.2 = n_batch self
  ∧ logits_all res.1.2 = logits_all self
  ∧ n_vocab res.1.2 = n_vocab self
  ∧ (n_tokens self ≤ n_tokens res.1.2)%Z.
Proof.
  intros decode logits self res. split; [by vm_compute|].
  apply (eval_keeps_sizes decode logits self [7; 8; 9]%Z res.1.1 res.1.2 res.2).
  by vm_compute.
Defined.

(** Five tokens in batches of two: two full batches and a last one of one
    token, placed at 4, 6 and 8. *)
Lemma eval_batches_witness :
  let decode := λ (_ : Z) (_ : list Z), @None exn in
  let logits := λ (_ : Z) (_ : list Z) (k : nat), Z.of_nat k in
  let self := LlamaObj 4%Z 2%Z (replicate 16 0%Z) (Array2 2 3 (replicate 6 0%Z)) false 3 None in
  let tokens := [7; 8; 9; 10; 11]%Z in
  let res := eval_with_progress Z decode logits self tokens in
  map it_batch res.2 = [[7; 8]; [9; 10]; [11]]%Z
  ∧ map it_n_past res.2 = [4; 6; 8]%Z
  ∧ length res.2 = 3%nat
  ∧ Forall (λ it, (1 ≤ length (it_batch it) ≤ 2)%nat) res.2
  ∧ (∀ k, (S k < 3)%nat → length (chunk 2 tokens k) = 2%nat)
  ∧ concat (map it_batch res.2) = tokens
  ∧ n_tokens res.1.2 = 9%Z.
Proof.
  intros decode logits self tokens res.
  exact (eval_batches decode logits self tokens res.1.2 res.2
           ltac:(by vm_compute) ltac:(by vm_compute)).
Defined.


(** Three tokens in batches of two with two rows of [scores]: the index is
    capped at row one, which holds the logits of the last batch. *)
Lemma eval_last_row_witness :
  let decode := λ (_ : Z) (_ : list Z), @None exn in
  let logits := λ (n_past : Z) (_ : list Z) (k : nat), (10 * n_past + Z.of_nat k)%Z in
  let self := LlamaObj 0%Z 2%Z (replicate 4 0%Z) (Array2 2 3 (replicate 6 0%Z)) false 3 None in
  let tokens := [7; 8; 9]%Z in
  let res := eval_with_progress Z decode logits self tokens in
  get_row (scores res.1.2) 1 = [20; 21; 22]%Z
  ∧ last_updated_index res.1.2
    = Some (row_after self (n_tokens self + Z.of_nat (length tokens)))
  ∧ (logits_all self = false →
     length (flat (scores self)) = (shape0 (scores self) * shape1 (scores self))%nat →
     shape1 (scores self) = n_vocab self →
     ∃ it r,
       last res.2 = Some it
       ∧ (it_n_past it + Z.of_nat (length (it_batch it))
          = n_tokens self + Z.of_nat (length tokens))%Z
       ∧ np_index (shape0 (scores self))
           (row_after self (n_tokens self + Z.of_nat (length tokens))) = Return r
       ∧ get_row (scores res.1.2) r
         = as_array Z logits (it_n_past it) (it_batch it) (n_vocab self)).
Proof.
  intros decode logits self tokens res. split; [by vm_compute|].
  apply (eval_last_row decode logits self tokens res.1.2 res.2);
    [by vm_compute|done|by vm_compute].
Defined.

(** * Properties of patched_init *)

(** In both branches, each parameter gets the value the call passes for it. *)
Lemma init_parameters_canonical self args kwargs :
  init_parameters self args kwargs
  = <["stop_token_ids" := passed args kwargs 4]>
      (<["add_generation_prompt" := passed args kwargs 3]>
         (<["bos_token" := passed args kwargs 2]>
            (<["eos_token" := passed args kwargs 1]>
               (<["template" := passed args kwargs 0]> self)))).
Proof. by destruct args. Qed.

Lemma patched_init_by_passed fs self args kwargs args' kwargs' :
  (∀ i, (i < 5)%nat → passed args kwargs i = passed args' kwargs' i) →
  patched_init fs self args kwargs = patched_init fs self args' kwargs'.
Proof.
  intros Hp. unfold patched_init. rewrite !init_parameters_canonical.
  by rewrite !Hp by lia.
Qed.

(** X13.  Positional and keyword arguments are interchangeable: passing the
    first [k] of the five parameters by position and the others by keyword
    has the same effect for every [k] from none to all. *)
Theorem patched_init_positional_or_keyword fs self (v0 v1 v2 v3 v4 : value) (k : nat) :
  (k ≤ 5)%nat →
  patched_init fs self (take k [v0; v1; v2; v3; v4])
    (list_to_map (drop k (zip init_names [v0; v1; v2; v3; v4])))
  = patched_init fs self [v0; v1; v2; v3; v4] ∅.
Proof.
  intros Hk. apply patched_init_by_passed. intros i Hi.
  do 6 (destruct k as [|k]; [do 5 (destruct i as [|i]; [by vm_compute|]); lia|]).
  lia.
Qed.

Lemma patched_init_positional_or_keyword_witness :
  let fs := λ (_ : jinja_options) (t : value),
    match t with StrV _ => Done (TemplateV 0) | _ => Fails (Raised "TypeError" "Can't compile non template nodes") end in
  patched_init fs ∅ (take 2 [StrV "{{ x }}"; StrV "</s>"; StrV "<s>"; BoolV false; ListV [2; 2; 7]%Z])
    (list_to_map (drop 2 (zip init_names
       [StrV "{{ x }}"; StrV "</s>"; StrV "<s>"; BoolV false; ListV [2; 2; 7]%Z])))
  = patched_init fs ∅ [StrV "{{ x }}"; StrV "</s>"; StrV "<s>"; BoolV false; ListV [2; 2; 7]%Z] ∅.
Proof.
  intros fs. apply (patched_init_positional_or_keyword fs ∅). lia.
Defined.



Lemma py_set_list_members (l : list Z) :
  ∃ s, py_set (ListV l) = Done (SetV s) ∧ ∀ x, x ∈ s ↔ x ∈ l.
Proof. eexists. split; [done|]. intros x. apply elem_of_list_to_set. Qed.

(** The call with the parameters spelled out. *)
Lemma patched_init_unfold fs self args kwargs :
  patched_init fs self args kwargs
  = let self1 :=
      <["stop_token_ids" := passed args kwargs 4]>
        (<["add_generation_prompt" := passed args kwargs 3]>
           (<["bos_token" := passed args kwargs 2]>
              (<["eos_token" := passed args kwargs 1]>
                 (<["template" := passed args kwargs 0]> self)))) in
    match (match passed args kwargs 4 with
           | NoneV => Done NoneV
           | _ => py_set (passed args kwargs 4)
           end) with
    | Fails e => (Some e, self1)
    | Done stop' =>
        match fs (JinjaOptions true true ["jinja2.ext.loopcontrols"])
                 (passed args kwargs 0) with
        | Fails e => (Some e, <["stop_token_ids" := stop']> self1)
        | Done env =>
            (None, <["_environment" := env]> (<["stop_token_ids" := stop']> self1))
        end
    end.
Proof.
  unfold patched_init. rewrite init_parameters_canonical.
  rewrite lookup_insert_eq. cbn [default]. cbv zeta.
  destruct (match passed args kwargs 4 with NoneV => _ | _ => _ end); [|done].
  do 5 (rewrite lookup_insert_ne by done). by rewrite lookup_insert_eq.
Qed.

(** X15.  What a call leaves on the instance.  Each of [template],
    [eos_token], [bos_token] and [add_generation_prompt] holds the value
    passed for it, [None] by default and [True] for [add_generation_prompt].
    [stop_token_ids] stays [None] when nothing or [None] is passed; a list
    becomes the set of its members; a value that is not iterable makes the
    call raise [TypeError] with the parameters assigned and no environment
    created.  A call that returns has stored what Jinja compiled from the
    template, with the loop controls extension and both block options on.
    No other attribute is written. *)
Theorem patched_init_attributes fs self args kwargs :
  let r := (patched_init fs self args kwargs).1 in
  let self' := (patched_init fs self args kwargs).2 in
  self' !! "template" = Some (passed args kwargs 0)
  ∧ self' !! "eos_token" = Some (passed args kwargs 1)
  ∧ self' !! "bos_token" = Some (passed args kwargs 2)
  ∧ self' !! "add_generation_prompt" = Some (passed args kwargs 3)
  ∧ (passed args kwargs 4 = NoneV → self' !! "stop_token_ids" = Some NoneV)
  ∧ (∀ l, passed args kwargs 4 = ListV l →
       ∃ s, self' !! "stop_token_ids" = Some (SetV s) ∧ ∀ x, x ∈ s ↔ x ∈ l)
  ∧ (∀ e, py_set (passed args kwargs 4) = Fails e → passed args kwargs 4 ≠ NoneV →
       r = Some e
       ∧ self' !! "stop_token_ids" = Some (passed args kwargs 4)
       ∧ self' !! "_environment" = self !! "_environment")
  ∧ (r = None →
       ∃ env, fs (JinjaOptions true true ["jinja2.ext.loopcontrols"])
                 (passed args kwargs 0) = Done env
              ∧ self' !! "_environment" = Some env)
  ∧ (∀ name, name ∉ init_names → name ≠ "_environment" →
       self' !! name = self !! name).
Proof.
  intros r self'. subst r self'. rewrite patched_init_unfold. cbv zeta.
  set (v4 := passed args kwargs 4).
  set (norm := match v4 with NoneV => Done NoneV | _ => py_set v4 end).
  assert (v4 = NoneV → norm = Done NoneV) as Hnone by (by intros ->).
  assert (∀ l, v4 = ListV l → norm = Done (SetV (list_to_set l))) as Hlist
    by (by intros l ->).
  assert (∀ e, py_set v4 = Fails e → v4 ≠ NoneV → norm = Fails e) as Hfail
    by (intros e; unfold norm; by destruct v4).
  assert (∀ e, norm = Fails e → v4 ≠ NoneV ∧ ∀ l, v4 ≠ ListV l) as Hfail'
    by (intros e; unfold norm; by destruct v4).
  clearbody norm.
  destruct norm as [stop'|e0];
    [destruct (fs _ (passed args kwargs 0)) as [env|e1]|]; cbn [fst snd].
  - split_and!.
    1-4: by repeat (rewrite lookup_insert_eq || rewrite lookup_insert_ne by done).
    + intros Hv. specialize (Hnone Hv). simplify_eq.
      by repeat (rewrite lookup_insert_eq || rewrite lookup_insert_ne by done).
    + intros l Hv. specialize (Hlist l Hv). simplify_eq. eexists. split.
      * by repeat (rewrite lookup_insert_eq || rewrite lookup_insert_ne by done).
      * intros x. apply elem_of_list_to_set.
    + intros e He Hv. by specialize (Hfail e He Hv).
    + intros _. exists env. split; [done|]. by rewrite lookup_insert_eq.
    + intros name Hn Hne. unfold init_names in Hn.
      rewrite !lookup_insert_ne; [done|set_solver..].
  - split_and!.
    1-4: by repeat (rewrite lookup_insert_eq || rewrite lookup_insert_ne by done).
    + intros Hv. specialize (Hnone Hv). simplify_eq. by rewrite lookup_insert_eq.
    + intros l Hv. specialize (Hlist l Hv). simplify_eq. eexists. split.
      * by rewrite lookup_insert_eq.
      * intros x. apply elem_of_list_to_set.
    + intros e He Hv. by specialize (Hfail e He Hv).
    + done.
    + intros name Hn Hne. unfold init_names in Hn.
      rewrite !lookup_insert_ne; [done|set_solver..].
  - destruct (Hfail' e0 eq_refl) as [Hnn Hnl]. split_and!.
    1-4: by repeat (rewrite lookup_insert_eq || rewrite lookup_insert_ne by done).
    + done.
    + intros l Hv. by destruct (Hnl l).
    + intros e He Hv. specialize (Hfail e He Hv). simplify_eq.
      split_and!; [done|by rewrite lookup_insert_eq|].
      by repeat (rewrite lookup_insert_ne by done).
    + done.
    + intros name Hn Hne. unfold init_names in Hn.
      rewrite !lookup_insert_ne; [done|set_solver..].
Qed.

(** * The rows written with logits_all *)

(** With room for them, [arr[a : a + n, :].reshape(-1)[::] = vals] stores the
    values in the cells of the rows [a] to [a + n]. *)
Lemma np_set_rows_fits {A} (arr : array2 A) (a n : nat) (vals : list A) :
  (a + n ≤ shape0 arr)%nat → length vals = (n * shape1 arr)%nat →
  np_set_rows arr (Z.of_nat a) (Z.of_nat a + Z.of_nat n) vals
  = Return (Array2 (shape0 arr) (shape1 arr)
              (take (a * shape1 arr) (flat arr) ++ vals
                 ++ drop (a * shape1 arr + length vals) (flat arr))).
Proof.
  intros Hfit Hlen. unfold np_set_rows.
  replace (Z.of_nat a + Z.of_nat n)%Z with (Z.of_nat (a + n)) by lia.
  rewrite !slice_bound_nat, !Nat.min_l by lia.
  replace ((a + n - a) * shape1 arr)%nat with (length vals) by (rewrite Hlen; f_equal; lia).
  by rewrite np_assign_fits.
Qed.

Section EvalScores.

Context {F : Type}.
Variable ctx_decode : Z → list Z → option exn.
Variable ctx_get_logits : Z → list Z → nat → F.

Local Abbreviation step := (eval_step F ctx_decode ctx_get_logits).
Local Abbreviation loop := (eval_loop F ctx_decode ctx_get_logits).
Local Abbreviation eval := (eval_with_progress F ctx_decode ctx_get_logits).

(** The logits an iteration reads with [logits_all]: one row per token of
    its batch. *)
Local Abbreviation logits_of V :=
  (λ it : iteration,
     as_array F ctx_get_logits (it_n_past it) (it_batch it)
       (length (it_batch it) * V)).

Lemma eval_loop_scores tokens (self0 : llama F) (s m : nat) :
  ∀ j self self' its W,
  (0 < s)%nat → n_batch self0 = Z.of_nat s → (0 ≤ n_tokens self0)%Z →
  logits_all self0 = true →
  shape1 (scores self0) = n_vocab self0 →
  length (flat (scores self0)) = (shape0 (scores self0) * shape1 (scores self0))%nat →
  (Z.to_nat (n_tokens self0) + length tokens ≤ shape0 (scores self0))%nat →
  steady self0 self →
  n_tokens self = (n_tokens self0 + Z.of_nat (length (take (j * s) tokens)))%Z →
  length W = (length (take (j * s) tokens) * n_vocab self0)%nat →
  flat (scores self)
    = splice (flat (scores self0)) (Z.to_nat (n_tokens self0) * n_vocab self0) W →
  (∀ k, (j ≤ k < j + m)%nat → (k * s < length tokens)%nat) →
  loop tokens (map (λ k : nat, (Z.of_nat k * Z.of_nat s)%Z) (seq j m)) self
    = (Return tt, self', its) →
  flat (scores self')
  = splice (flat (scores self0)) (Z.to_nat (n_tokens self0) * n_vocab self0)
      (W ++ concat (map (logits_of (n_vocab self0)) its)).
Proof.
  induction m as [|m IH];
    intros j self self' its W Hs Hnb Hlo Hla Hcols Hwf Hroom Hst Hcount HW Hflat Hidx Hloop.
  { simpl in Hloop. simplify_eq. simpl. by rewrite app_nil_r. }
  simpl in Hloop.
  destruct (step tokens _ self) as [[r1 self1] its1] eqn:Hstep.
  pose proof (eval_step_steady _ _ _ _ _ _ _ _ _ Hst Hstep) as (Hst1 & _).
  destruct r1 as [[]|e]; [|done].
  pose proof (eval_step_return _ _ _ _ _ _ _ Hstep) as (Hn1 & _ & Hits & _).
  destruct Hst as (_ & Hb & Hl & Hv & Hs0 & Hs1).
  pose proof (Hidx j ltac:(lia)) as Hj.
  rewrite Hb, Hnb, batch_is_chunk in Hn1, Hits by (try done; lia).
  rewrite Hl, Hla in Hits.
  set (batch := chunk s tokens j) in *.
  pose proof (chunk_length s tokens j) as Hclen. fold batch in Hclen.
  assert (length (take (S j * s) tokens) = length (take (j * s) tokens) + length batch)%nat
    as Hlen' by (unfold batch; by rewrite take_chunk_step, length_app).
  assert (length (take (S j * s) tokens) ≤ length tokens)%nat
    by (rewrite length_take; lia).
  set (P := Z.to_nat (n_tokens self0)) in *.
  set (c := length (take (j * s) tokens)) in *.
  (* the write to [scores] of this iteration *)
  assert (flat (scores self1)
          = splice (flat (scores self0)) (P * n_vocab self0)
              (W ++ concat (map (logits_of (n_vocab self0)) its1))) as Hflat1.
  { revert Hstep. unfold eval_step.
    rewrite Hb, Hnb, batch_is_chunk by (try done; lia). fold batch.
    destruct (ctx_decode _ _); [done|].
    destruct (np_set_slice _ _ _ _) as [ids|]; [|done].
    rewrite Hl, Hla.
    replace (n_tokens self) with (Z.of_nat (P + c)) by lia.
    rewrite np_set_rows_fits;
      [|rewrite Hs0; lia
       |unfold as_array; rewrite length_map, length_seq, Hs1, Hcols, Hv; done].
    intros [= <- <-]. cbn [scores flat map concat it_n_past it_batch].
    rewrite app_nil_r, Hflat, Hs1, Hcols.
    replace (n_tokens self) with (Z.of_nat (P + c)) by lia. rewrite Hv.
    set (L1 := as_array F ctx_get_logits (Z.of_nat (P + c)) batch
                 (length batch * n_vocab self0)).
    replace ((P + c) * n_vocab self0)%nat
      with (P * n_vocab self0 + length W)%nat by lia.
    apply splice_extend. rewrite Hwf, Hcols, HW. nia. }
  destruct (loop tokens _ self1) as [[r2 self2] its2] eqn:Hrec.
  assert (r2 = Return tt) as -> by (by simplify_eq).
  apply (IH (S j) _ _ _ (W ++ concat (map (logits_of (n_vocab self0)) its1))) in Hrec;
    [|done|done|done|done|done|done|done|done| | |done|intros k Hk; apply Hidx; lia].
  - simplify_eq. rewrite Hrec, map_app, concat_app. by rewrite (assoc_L (++)).
  - rewrite Hn1, Hcount. lia.
  - subst its1. cbn [map concat it_n_past it_batch].
    rewrite app_nil_r, length_app. unfold as_array.
    rewrite length_map, length_seq, HW. fold c. nia.
Qed.

(** X16.  With [logits_all] on and room in [scores] for the positions of the
    call, a call that returns has stored the logits of every token, batch by
    batch and in order, in the rows [p] to [p + len(tokens)]; the rows before
    and behind are untouched. *)
Theorem eval_scores_logits_all (self : llama F) (tokens : list Z) self' its :
  logits_all self = true →
  (0 < n_batch self)%Z →
  (0 ≤ n_tokens self)%Z →
  shape1 (scores self) = n_vocab self →
  length (flat (scores self)) = (shape0 (scores self) * shape1 (scores self))%nat →
  (Z.to_nat (n_tokens self) + length tokens ≤ shape0 (scores self))%nat →
  eval self tokens = (Return tt, self', its) →
  flat (scores self')
  = splice (flat (scores self)) (Z.to_nat (n_tokens self) * n_vocab self)
      (concat (map (logits_of (n_vocab self)) its))
  ∧ length (concat (map (logits_of (n_vocab self)) its))
    = (length tokens * n_vocab self)%nat.
Proof.
  intros Hla Hnb Hlo Hcols Hwf Hroom Heval.
  set (s := Z.to_nat (n_batch self)).
  assert (n_batch self = Z.of_nat s) as Hs by (unfold s; lia).
  assert (0 < s)%nat as Hspos by lia.
  set (cnt := Z.to_nat ((Z.of_nat (length tokens) + Z.of_nat s - 1) / Z.of_nat s)).
  assert (∀ k, (k < cnt)%nat ↔ (k * s < length tokens)%nat) as Hcnt.
  { intros k. by apply range_count. }
  unfold eval_with_progress in Heval.
  rewrite Hs, py_range_positive in Heval by lia. fold cnt in Heval.
  pose proof Heval as Hloop.
  apply (eval_loop_scores _ self s cnt 0 _ _ _ []) in Heval;
    [|done|done|done|done|done|done|done|apply steady_refl|simpl; lia|done
     | |intros k Hk; apply Hcnt; lia].
  2:{ unfold splice. simpl. by rewrite Nat.add_0_r, take_drop. }
  split; [done|].
  apply (eval_loop_batches _ _ _ self s) in Hloop as (Hb & _ & _);
    [|done|done|apply steady_refl|simpl; lia|intros k Hk; apply Hcnt; lia].
  assert (∀ l : list iteration,
            length (concat (map (logits_of (n_vocab self)) l))
            = (length (concat (map it_batch l)) * n_vocab self)%nat) as Hlen.
  { induction l as [|it l IHl]; [done|]. cbn [map concat].
    rewrite !length_app, IHl. unfold as_array. rewrite length_map, length_seq. lia. }
  rewrite Hlen, Hb. pose proof (concat_chunks tokens s cnt 0) as Hc. simpl in Hc.
  rewrite Hc, take_ge; [done|].
  destruct (Nat.le_gt_cases (length tokens) (cnt * s)); [done|].
  assert (cnt < cnt)%nat; [|lia]. by apply Hcnt.
Qed.

End EvalScores.

(** Three tokens in batches of two behind one stored position, four rows of
    two logits: rows one to three are written. *)
Lemma eval_scores_logits_all_witness :
  let decode := λ (_ : Z) (_ : list Z), @None exn in
  let logits := λ (n_past : Z) (_ : list Z) (k : nat), (10 * n_past + Z.of_nat k)%Z in
  let self := LlamaObj 1%Z 2%Z (replicate 4 0%Z) (Array2 4 2 (replicate 8 0%Z)) true 2 None in
  let tokens := [7; 8; 9]%Z in
  let res := eval_with_progress Z decode logits self tokens in
  flat (scores res.1.2) = [0; 0; 10; 11; 12; 13; 30; 31]%Z
  ∧ flat (scores res.1.2)
    = splice (flat (scores self)) (Z.to_nat (n_tokens self) * n_vocab self)
        (concat (map (λ it, as_array Z logits (it_n_past it) (it_batch it)
                              (length (it_batch it) * n_vocab self)) res.2))
  ∧ length (concat (map (λ it, as_array Z logits (it_n_past it) (it_batch it)
                                 (length (it_batch it) * n_vocab self)) res.2))
    = (length tokens * n_vocab self)%nat.
Proof.
  intros decode logits self tokens res. split; [by vm_compute|].
  apply (eval_scores_logits_all decode logits self tokens res.1.2 res.2);
    [done|by vm_compute|by vm_compute|done|done|vm_compute; lia|by vm_compute].
Defined.
